(** * Verification of the portfolio page script (src/script.js)

    A shallow embedding of the client-side behaviour layer of the portfolio
    page: the scroll-progress computation, the easing curve, the scroll spy
    and mobile navigation state machine, the one-shot reveal observer and the
    mock contact form, followed by the properties the specification states
    about them. *)

From Stdlib Require Import QArith Qminmax Lqa Lia ZArith NArith Bool Floats Ascii.
From stdpp Require Import base list strings gmap.

Local Open Scope Q_scope.

(** * JavaScript numbers

    The script computes with IEEE binary64 numbers.  They are modelled as
    exact rationals extended with NaN and the two infinities, so that the
    exceptional results of a division (0/0, x/0) are kept; rounding and the
    sign of zero are not modelled. *)
Module Number.

Inductive number : Type :=
  | NaN
  | Infinity (negative : bool)
  | Finite (q : Q).

Definition Qsign_neg (q : Q) : bool := if Qlt_le_dec q 0 then true else false.
Definition Qis_zero (q : Q) : bool := Qeq_bool q 0.

(** Unary minus. *)
Definition neg (a : number) : number :=
  match a with
  | NaN => NaN
  | Infinity s => Infinity (negb s)
  | Finite q => Finite (- q)
  end.

(** [a + b] *)
Definition add (a b : number) : number :=
  match a, b with
  | NaN, _ | _, NaN => NaN
  | Infinity s, Infinity s' => if Bool.eqb s s' then Infinity s else NaN
  | Infinity s, Finite _ | Finite _, Infinity s => Infinity s
  | Finite p, Finite q => Finite (p + q)
  end.

(** [a - b] *)
Definition sub (a b : number) : number := add a (neg b).

(** [a * b] *)
Definition mul (a b : number) : number :=
  match a, b with
  | NaN, _ | _, NaN => NaN
  | Infinity s, Infinity s' => Infinity (xorb s s')
  | Infinity s, Finite q | Finite q, Infinity s =>
      if Qis_zero q then NaN else Infinity (xorb s (Qsign_neg q))
  | Finite p, Finite q => Finite (p * q)
  end.

(** [a / b] *)
Definition div (a b : number) : number :=
  match a, b with
  | NaN, _ | _, NaN => NaN
  | Infinity _, Infinity _ => NaN
  | Infinity s, Finite q => Infinity (xorb s (Qsign_neg q))
  | Finite _, Infinity _ => Finite 0
  | Finite p, Finite q =>
      if Qis_zero q then
        if Qis_zero p then NaN else Infinity (Qsign_neg p)
      else Finite (p / q)
  end.

(** [a < b]: every comparison with NaN is false. *)
Definition ltb (a b : number) : bool :=
  match a, b with
  | NaN, _ | _, NaN => false
  | Infinity s, Infinity s' => s && negb s'
  | Infinity s, Finite _ => s
  | Finite _, Infinity s => negb s
  | Finite p, Finite q => if Qlt_le_dec p q then true else false
  end.

(** [Math.min(a, b)]: NaN if either argument is NaN. *)
Definition min (a b : number) : number :=
  match a, b with
  | NaN, _ | _, NaN => NaN
  | _, _ => if ltb b a then b else a
  end.

(** ToBoolean on a number: 0 and NaN are falsy. *)
Definition truthy (a : number) : bool :=
  match a with
  | NaN => false
  | Infinity _ => true
  | Finite q => negb (Qis_zero q)
  end.

(** [a || b] on numbers. *)
Definition or (a b : number) : number := if truthy a then a else b.

(** Equality of numbers up to the representation of a rational. *)
Definition eqv (a b : number) : Prop :=
  match a, b with
  | NaN, NaN => True
  | Infinity s, Infinity s' => s = s'
  | Finite p, Finite q => p == q
  | _, _ => False
  end.

End Number.

Import Number.

Declare Scope js_scope.
Delimit Scope js_scope with js.
Infix "+" := add : js_scope.
Infix "-" := sub : js_scope.
Infix "*" := mul : js_scope.
Infix "/" := div : js_scope.
Infix "<?" := ltb : js_scope.
Infix "||" := or : js_scope.
Infix "=~" := eqv (at level 70) : js_scope.

(** * Utility functions (the [utils] object) *)
Module Utils.

(** The window and document measurements [getScrollProgress] reads. *)
Record viewport : Type := {
  innerHeight : number;     (* window.innerHeight *)
  scrollHeight : number;    (* document.documentElement.scrollHeight *)
  pageYOffset : number;     (* window.pageYOffset *)
  docScrollTop : number     (* document.documentElement.scrollTop *)
}.

(** First branch of [easeInOutCubic]: [4 * t * t * t]. *)
Definition easeIn (t : number) : number :=
  (Finite 4 * t * t * t)%js.

(** Second branch: [(t - 1) * (2 * t - 2) * (2 * t - 2) + 1]. *)
Definition easeOut (t : number) : number :=
  ((t - Finite 1) * (Finite 2 * t - Finite 2) * (Finite 2 * t - Finite 2)
   + Finite 1)%js.

(** [easeInOutCubic: (t) => t < 0.5 ? ... : ...] *)
Definition easeInOutCubic (t : number) : number :=
  if (t <? Finite (1 # 2))%js then easeIn t else easeOut t.

(** [const scrollTop = window.pageYOffset || document.documentElement.scrollTop] *)
Definition scrollTop (v : viewport) : number :=
  (pageYOffset v || docScrollTop v)%js.

(** [const trackLength = docHeight - winHeight] *)
Definition trackLength (v : viewport) : number :=
  (scrollHeight v - innerHeight v)%js.

(** [getScrollProgress]: [Math.min(scrollTop / trackLength, 1)] *)
Definition getScrollProgress (v : viewport) : number :=
  Number.min (scrollTop v / trackLength v)%js (Finite 1).

End Utils.

(** * Progress bar *)
Module ProgressBar.

(** The value written to [style.width]: the template [`${progress}%`]. *)
Inductive css_width : Type :=
  | Percent (n : number).

(** [clamp(x, lo, hi)] as the specification writes it. *)
Definition clamp (x lo hi : Q) : Q := Qmax lo (Qmin x hi).

(** [progressBar.update] *)
Definition update (v : Utils.viewport) : css_width :=
  let progress := (Utils.getScrollProgress v * Finite 100)%js in
  Percent progress.

End ProgressBar.

(** ** The same utilities on binary64

    The utilities once more on the kernel's binary64 floats, to evaluate
    them at given points with the rounding the script really has. *)
Module Binary64.

Import PrimFloat.
Local Open Scope float_scope.

Definition easeIn (t : float) : float := 4 * t * t * t.

Definition easeOut (t : float) : float :=
  (t - 1) * (2 * t - 2) * (2 * t - 2) + 1.

Definition easeInOutCubic (t : float) : float :=
  if t <? 0.5 then easeIn t else easeOut t.

(** [Math.min] returns NaN when an argument is NaN. *)
Definition math_min (a b : float) : float :=
  if is_nan a || is_nan b then nan else if b <? a then b else a.

(** ToBoolean: +0, -0 and NaN are falsy. *)
Definition truthy (a : float) : bool := negb (is_nan a || is_zero a).

Definition getScrollProgress
    (winHeight docHeight pageYOffset docScrollTop : float) : float :=
  let scrollTop := if truthy pageYOffset then pageYOffset else docScrollTop in
  let trackLength := docHeight - winHeight in
  math_min (scrollTop / trackLength) 1.

End Binary64.

(** * DOM token lists ([classList]) *)
Module ClassList.

(** An ordered set of class names. *)
Abbreviation t := (list string).

Definition contains (c : string) (l : t) : bool := bool_decide (c ∈ l).

(** [classList.add(c)] *)
Definition add (c : string) (l : t) : t :=
  if contains c l then l else l ++ [c].

(** [classList.remove(c)] *)
Definition remove (c : string) (l : t) : t :=
  filter (λ x, x ≠ c) l.

(** [classList.toggle(c, force)] *)
Definition toggle (c : string) (force : bool) (l : t) : t :=
  if force then add c l else remove c l.

End ClassList.

Arguments ClassList.add : simpl never.
Arguments ClassList.remove : simpl never.

(** * Navigation: scroll spy and mobile menu *)
Module Navigation.

(** A [.nav-link] element. *)
Record link : Type := {
  href : string;
  dataSection : option string;   (* getAttribute('data-section'), null if absent *)
  linkClasses : ClassList.t
}.

(** The state the navigation code reads and writes. *)
Record nav : Type := {
  isNavOpen : bool;
  currentSection : string;
  toggleClasses : ClassList.t;     (* elements.mobileToggle.classList *)
  navLinksClasses : ClassList.t;   (* elements.navLinks.classList *)
  bodyOverflow : string;           (* document.body.style.overflow *)
  navLinkItems : list link;        (* elements.navLinkItems *)
  innerWidth : Z                   (* window.innerWidth *)
}.

(** A call of [classList.toggle] on the nav link of the given index. *)
Record dom_write : Type := {
  w_link : nat;
  w_class : string;
  w_force : bool
}.

(** [let currentSection = 'home'] and [let isNavOpen = false], over a page
    whose elements are as the document gives them. *)
Definition initial (tc nc : ClassList.t) (ov : string) (links : list link)
    (w : Z) : nav :=
  {| isNavOpen := false; currentSection := "home";
     toggleClasses := tc; navLinksClasses := nc; bodyOverflow := ov;
     navLinkItems := links; innerWidth := w |}.

(** [link.getAttribute('data-section') === sectionId] *)
Definition isActive (sectionId : string) (l : link) : bool :=
  match dataSection l with
  | Some d => bool_decide (d = sectionId)
  | None => false
  end.

Definition toggleLink (sectionId : string) (l : link) : link :=
  {| href := href l; dataSection := dataSection l;
     linkClasses := ClassList.toggle "active" (isActive sectionId l) (linkClasses l) |}.

(** [setActiveLink]: the new state and the [classList.toggle] calls made. *)
Definition setActiveLink (sectionId : string) (s : nav) : nav * list dom_write :=
  if bool_decide (currentSection s = sectionId) then (s, [])
  else
    ({| isNavOpen := isNavOpen s; currentSection := sectionId;
        toggleClasses := toggleClasses s; navLinksClasses := navLinksClasses s;
        bodyOverflow := bodyOverflow s;
        navLinkItems := map (toggleLink sectionId) (navLinkItems s);
        innerWidth := innerWidth s |},
     imap (λ i l, {| w_link := i; w_class := "active";
                    w_force := isActive sectionId l |}) (navLinkItems s)).

(** An entry handed to the scroll spy's observer callback. *)
Record spy_entry : Type := {
  targetId : string;          (* entry.target.id *)
  spyIntersecting : bool      (* entry.isIntersecting *)
}.

(** The observer callback of [setupActiveState]. *)
Definition spyCallback (entries : list spy_entry) (s : nav) : nav * list dom_write :=
  foldl (λ acc entry,
           if spyIntersecting entry then
             let r := setActiveLink (targetId entry) acc.1 in
             (r.1, acc.2 ++ r.2)
           else acc)
        (s, []) entries.

(** The click listener of the mobile toggle button. *)
Definition toggleClick (s : nav) : nav :=
  let o := negb (isNavOpen s) in
  {| isNavOpen := o; currentSection := currentSection s;
     toggleClasses := ClassList.toggle "active" o (toggleClasses s);
     navLinksClasses := ClassList.toggle "active" o (navLinksClasses s);
     bodyOverflow := if o then "hidden" else EmptyString;
     navLinkItems := navLinkItems s; innerWidth := innerWidth s |}.

(** [closeMobileNav] *)
Definition closeMobileNav (s : nav) : nav :=
  {| isNavOpen := false; currentSection := currentSection s;
     toggleClasses := ClassList.remove "active" (toggleClasses s);
     navLinksClasses := ClassList.remove "active" (navLinksClasses s);
     bodyOverflow := EmptyString;
     navLinkItems := navLinkItems s; innerWidth := innerWidth s |}.

(** The click listener added to every nav link by [setupMobileToggle]. *)
Definition linkClick (s : nav) : nav :=
  if (innerWidth s <=? 768)%Z then closeMobileNav s else s.

(** The document click listener; [inNavbar] is
    [elements.navbar.contains(e.target)]. *)
Definition documentClick (inNavbar : bool) (s : nav) : nav :=
  if isNavOpen s && negb inNavbar then closeMobileNav s else s.

(** The keydown listener of [setupKeyboardNavigation]. *)
Definition keydown (key : string) (s : nav) : nav :=
  if bool_decide (key = "Escape") && isNavOpen s then closeMobileNav s else s.

(** Where a click lands. *)
Inductive click_target : Type :=
  | OnToggle
  | OnNavLink
  | Elsewhere.

(** What the browser can do to the navigation state. *)
Inductive event : Type :=
  | Click (t : click_target) (inNavbar : bool)
  | KeyDown (key : string)
  | Resize (width : Z)
  | Intersection (entries : list spy_entry).

(** Dispatch: the listeners of the target run first, then the click bubbles
    to the document listener.  The second click listener of a nav link
    (smooth scrolling and [history.pushState]) and the Tab listener act on
    the scroll position, the history and the body's classes only, which
    are not part of [nav]. *)
Definition step (e : event) (s : nav) : nav :=
  match e with
  | Click OnToggle b => documentClick b (toggleClick s)
  | Click OnNavLink b => documentClick b (linkClick s)
  | Click Elsewhere b => documentClick b s
  | KeyDown k => keydown k s
  | Resize w =>
      {| isNavOpen := isNavOpen s; currentSection := currentSection s;
         toggleClasses := toggleClasses s; navLinksClasses := navLinksClasses s;
         bodyOverflow := bodyOverflow s; navLinkItems := navLinkItems s;
         innerWidth := w |}
  | Intersection es => (spyCallback es s).1
  end.

Definition run (es : list event) (s : nav) : nav :=
  foldl (λ acc e, step e acc) s es.

(** The menu is closed: the flag is off, neither element carries [active]
    and the body's overflow style is unset. *)
Definition closed (s : nav) : Prop :=
  isNavOpen s = false ∧ ("active" ∉ toggleClasses s) ∧
  ("active" ∉ navLinksClasses s) ∧ bodyOverflow s = EmptyString.

(** An event in which the scroll spy reports no section other than home. *)
Definition onlyHome (e : event) : Prop :=
  match e with
  | Intersection es =>
      Forall (λ en, spyIntersecting en = true → targetId en = "home") es
  | _ => True
  end.

(** The three values the menu code writes besides the flag. *)
Definition menu_view (s : nav) : ClassList.t * ClassList.t * string :=
  (toggleClasses s, navLinksClasses s, bodyOverflow s).

End Navigation.

(** * Navigation: the state the menu code keeps in step *)
Module MenuSync.

Import Navigation.

(** The flag and the page agree: an open menu has [active] on the toggle
    and on the link container and the body's overflow hidden, a closed one
    has none of these. *)
Definition inSync (s : nav) : Prop :=
  if isNavOpen s then
    ("active" ∈ toggleClasses s) ∧ ("active" ∈ navLinksClasses s) ∧
    bodyOverflow s = "hidden"
  else closed s.

(** The section ids the scroll spy is told are intersecting, in order. *)
Definition intersectingIds (entries : list spy_entry) : list string :=
  targetId <$> filter (λ e, spyIntersecting e = true) entries.

End MenuSync.

(** * Reveal-on-scroll *)
Module Reveal.

(** An IntersectionObserverEntry; the target is an index into
    [elements.revealElements]. *)
Record entry : Type := {
  target : nat;
  isIntersecting : bool
}.

Record state : Type := {
  classes : list ClassList.t;    (* classList of each .reveal element *)
  observed : gset nat;           (* the observer's targets *)
  now : nat;                     (* milliseconds *)
  timers : list (nat * nat)      (* pending setTimeout: due time, target *)
}.

(** [observer.unobserve(t)] *)
Definition unobserve (t : nat) (s : state) : state :=
  {| classes := classes s; observed := observed s ∖ {[t]};
     now := now s; timers := timers s |}.

(** [setTimeout(() => entry.target.classList.add('show'), delay)] *)
Definition setTimeout (delay t : nat) (s : state) : state :=
  {| classes := classes s; observed := observed s;
     now := now s; timers := timers s ++ [((now s + delay)%nat, t)] |}.

(** The body of the [forEach] in the observer callback. *)
Definition onEntry (e : entry) (index : nat) (s : state) : state :=
  if isIntersecting e then
    unobserve (target e) (setTimeout (index * 50) (target e) s)
  else s.

(** The observer callback: [entries.forEach((entry, index) => ...)]. *)
Fixpoint callbackFrom (index : nat) (entries : list entry) (s : state) : state :=
  match entries with
  | [] => s
  | e :: rest => callbackFrom (S index) rest (onEntry e index s)
  end.

Definition callback (entries : list entry) (s : state) : state :=
  callbackFrom 0 entries s.

(** The timer callback: [entry.target.classList.add('show')]. *)
Definition addShow (t : nat) (s : state) : state :=
  {| classes := alter (ClassList.add "show") t (classes s);
     observed := observed s; now := now s; timers := timers s |}.

(** [revealAnimations.init] *)
Definition init (s : state) : state :=
  if bool_decide (length (classes s) = 0%nat) then s
  else {| classes := classes s;
          observed := observed s ∪ list_to_set (seq 0 (length (classes s)));
          now := now s; timers := timers s |}.

(** The browser delivers a batch of entries, or a pending timer fires.
    Timers may fire in any order here, which covers the order by due time. *)
Inductive event : Type :=
  | Deliver (entries : list entry)
  | Timeout (k : nat).

Definition step (e : event) (s : state) : state :=
  match e with
  | Deliver entries => callback entries s
  | Timeout k =>
      match timers s !! k with
      | Some (due, t) =>
          addShow t {| classes := classes s; observed := observed s;
                       now := Nat.max (now s) due;
                       timers := delete k (timers s) |}
      | None => s
      end
  end.

(** The states a run goes through, the first one included. *)
Fixpoint trace (es : list event) (s : state) : list state :=
  match es with
  | [] => [s]
  | e :: rest => s :: trace rest (step e s)
  end.

Definition run (es : list event) (s : state) : state :=
  foldl (λ acc e, step e acc) s es.

(** Element [i] carries the [show] class. *)
Definition shown (i : nat) (s : state) : bool :=
  match classes s !! i with
  | Some cl => ClassList.contains "show" cl
  | None => false
  end.

(** The number of steps of a trace at which element [i] goes from hidden
    to shown. *)
Fixpoint reveals (i : nat) (tr : list state) : nat :=
  match tr with
  | s :: ((s' :: _) as rest) =>
      ((if negb (shown i s) && shown i s' then 1 else 0) + reveals i rest)%nat
  | _ => 0%nat
  end.

(** The number of steps at which element [i] goes from shown to hidden. *)
Fixpoint hides (i : nat) (tr : list state) : nat :=
  match tr with
  | s :: ((s' :: _) as rest) =>
      ((if shown i s && negb (shown i s') then 1 else 0) + hides i rest)%nat
  | _ => 0%nat
  end.

End Reveal.

(** * Strings of UTF-16 code units, whitespace, and the regular expression *)
Module Text.

(** A JavaScript string: a sequence of UTF-16 code units. *)
Definition ustring : Type := list N.

(** An ASCII literal as a JavaScript string. *)
Definition lit (s : string) : ustring :=
  map Ascii.N_of_ascii (String.list_ascii_of_string s).

(** WhiteSpace and LineTerminator code points: what [trim] strips and what
    [\s] matches. *)
Definition isWhiteSpace (c : N) : bool :=
  bool_decide (c ∈ [9; 10; 11; 12; 13; 32; 160; 5760; 8232; 8233; 8239;
                    8287; 12288; 65279]%N)
  || ((8192 <=? c)%N && (c <=? 8202)%N).

Fixpoint trimStart (s : ustring) : ustring :=
  match s with
  | c :: rest => if isWhiteSpace c then trimStart rest else s
  | [] => []
  end.

Definition trimEnd (s : ustring) : ustring := reverse (trimStart (reverse s)).

(** [String.prototype.trim] *)
Definition trim (s : ustring) : ustring := trimEnd (trimStart s).

(** ToBoolean on a string: only the empty string is falsy. *)
Definition truthy (s : ustring) : bool :=
  match s with [] => false | _ => true end.

(** Regular expressions over code units. *)
Inductive regex : Type :=
  | Void
  | Eps
  | Class (p : N → bool)
  | Seq (r1 r2 : regex)
  | Alt (r1 r2 : regex)
  | Star (r : regex).

(** [r+] *)
Definition Plus (r : regex) : regex := Seq r (Star r).

(** A single given code unit. *)
Definition Chr (a : Ascii.ascii) : regex := Class (N.eqb (Ascii.N_of_ascii a)).

Fixpoint nullable (r : regex) : bool :=
  match r with
  | Void => false
  | Eps => true
  | Class _ => false
  | Seq r1 r2 => nullable r1 && nullable r2
  | Alt r1 r2 => nullable r1 || nullable r2
  | Star _ => true
  end.

(** The derivative of [r] by the code unit [c]. *)
Fixpoint deriv (c : N) (r : regex) : regex :=
  match r with
  | Void => Void
  | Eps => Void
  | Class p => if p c then Eps else Void
  | Seq r1 r2 =>
      if nullable r1 then Alt (Seq (deriv c r1) r2) (deriv c r2)
      else Seq (deriv c r1) r2
  | Alt r1 r2 => Alt (deriv c r1) (deriv c r2)
  | Star r1 => Seq (deriv c r1) (Star r1)
  end.

(** [r] matches the whole of [s]. *)
Fixpoint matches (r : regex) (s : ustring) : bool :=
  match s with
  | [] => nullable r
  | c :: rest => matches (deriv c r) rest
  end.

(** The strings a regular expression denotes. *)
Inductive lang : regex → ustring → Prop :=
  | lang_eps : lang Eps []
  | lang_class p c : p c = true → lang (Class p) [c]
  | lang_seq r1 r2 s1 s2 : lang r1 s1 → lang r2 s2 → lang (Seq r1 r2) (s1 ++ s2)
  | lang_alt_l r1 r2 s : lang r1 s → lang (Alt r1 r2) s
  | lang_alt_r r1 r2 s : lang r2 s → lang (Alt r1 r2) s
  | lang_star_nil r : lang (Star r) []
  | lang_star_app r s1 s2 : lang r s1 → lang (Star r) s2 → lang (Star r) (s1 ++ s2).

End Text.

(** * Contact form *)
Module ContactForm.

Import Text.

(** The submitted record: [const { name, email, message } = data]. *)
Record formData : Type := {
  name : ustring;
  email : ustring;
  message : ustring
}.

(** [elements.formStatus] *)
Record status_el : Type := {
  textContent : ustring;
  className : string
}.

(** The callbacks the form code hands to [setTimeout]. *)
Inductive task : Type :=
  | HideStatus
  | FinishSubmission (data : formData) (originalText : ustring).

Record page : Type := {
  fields : formData;             (* current values of the form controls *)
  defaults : formData;           (* their default values, for reset() *)
  submitText : ustring;          (* submitButton.textContent *)
  submitDisabled : bool;         (* submitButton.disabled *)
  formStatus : option status_el; (* None when the element is missing *)
  now : nat;                     (* milliseconds *)
  timers : list (nat * task)     (* pending setTimeout: due time, callback *)
}.

Definition setTimeout (tk : task) (delay : nat) (s : page) : page :=
  {| fields := fields s; defaults := defaults s; submitText := submitText s;
     submitDisabled := submitDisabled s; formStatus := formStatus s;
     now := now s; timers := timers s ++ [((now s + delay)%nat, tk)] |}.

Definition setStatus (st : status_el) (s : page) : page :=
  {| fields := fields s; defaults := defaults s; submitText := submitText s;
     submitDisabled := submitDisabled s; formStatus := Some st;
     now := now s; timers := timers s |}.

Definition setButton (text : ustring) (disabled : bool) (s : page) : page :=
  {| fields := fields s; defaults := defaults s; submitText := text;
     submitDisabled := disabled; formStatus := formStatus s;
     now := now s; timers := timers s |}.

(** [elements.contactForm.reset()] *)
Definition reset (s : page) : page :=
  {| fields := defaults s; defaults := defaults s; submitText := submitText s;
     submitDisabled := submitDisabled s; formStatus := formStatus s;
     now := now s; timers := timers s |}.

(** [showStatus(message, type)] *)
Definition showStatus (msg : ustring) (type : string) (s : page) : page :=
  match formStatus s with
  | None => s
  | Some _ =>
      setTimeout HideStatus 5000
        (setStatus {| textContent := msg;
                      className := "form-status " +:+ type |} s)
  end.

Definition notSpaceNorAt (c : N) : bool :=
  negb (isWhiteSpace c || N.eqb c (Ascii.N_of_ascii "@"%char)).

(** The body of [/^[^\s@]+@[^\s@]+\.[^\s@]+$/]. *)
Definition emailRegex : regex :=
  Seq (Plus (Class notSpaceNorAt))
      (Seq (Chr "@"%char)
           (Seq (Plus (Class notSpaceNorAt))
                (Seq (Chr "."%char) (Plus (Class notSpaceNorAt))))).

(** [emailRegex.test(email)]: with [^] and [$] and no flag, the expression
    has to match the whole string. *)
Definition isValidEmail (email : ustring) : bool := matches emailRegex email.

Definition nameError : ustring := lit "Please enter your name.".
Definition emailError : ustring := lit "Please enter a valid email address.".
Definition messageError : ustring := lit "Please enter your message.".

(** [validateForm]: the result and the page after the status was shown. *)
Definition validateForm (data : formData) (s : page) : bool * page :=
  if negb (truthy (trim (name data))) then
    (false, showStatus nameError "error" s)
  else if negb (isValidEmail (email data)) then
    (false, showStatus emailError "error" s)
  else if negb (truthy (trim (message data))) then
    (false, showStatus messageError "error" s)
  else (true, s).

(** [`Thanks, ${data.name}! I'll get back to you at ${data.email} soon.`] *)
Definition successMessage (data : formData) : ustring :=
  lit "Thanks, " ++ name data ++ lit "! I'll get back to you at "
    ++ email data ++ lit " soon.".

Definition sendingText : ustring := lit "Sending...".

(** The status element after [showStatus(successMessage, 'success')]. *)
Definition successStatus (d : formData) : status_el :=
  {| textContent := successMessage d; className := "form-status success" |}.

(** [simulateSubmission] up to the [setTimeout] call. *)
Definition simulateSubmission (data : formData) (s : page) : page :=
  let originalText := submitText s in
  setTimeout (FinishSubmission data originalText) 1500
    (setButton sendingText true s).

(** What a timer callback does when it runs. *)
Definition fire (tk : task) (s : page) : page :=
  match tk with
  | HideStatus =>
      match formStatus s with
      | Some st => setStatus {| textContent := textContent st;
                                className := "form-status" |} s
      | None => s
      end
  | FinishSubmission data originalText =>
      setButton originalText false
        (reset (showStatus (successMessage data) "success" s))
  end.

(** [handleSubmit]: the record is read from the form's controls. *)
Definition handleSubmit (s : page) : page :=
  let data := fields s in
  let r := validateForm data s in
  if r.1 then simulateSubmission data r.2 else r.2.

(** The pending timer that is due first; the earlier call wins a tie. *)
Fixpoint earliest (i : nat) (l : list (nat * task)) : option (nat * (nat * task)) :=
  match l with
  | [] => None
  | x :: rest =>
      match earliest (S i) rest with
      | Some (j, y) => if (x.1 <=? y.1)%nat then Some (i, x) else Some (j, y)
      | None => Some (i, x)
      end
  end.

(** The event loop runs the next timer callback, if any. *)
Definition tick (s : page) : option page :=
  match earliest 0 (timers s) with
  | Some (i, (due, tk)) =>
      Some (fire tk
              {| fields := fields s; defaults := defaults s;
                 submitText := submitText s; submitDisabled := submitDisabled s;
                 formStatus := formStatus s; now := Nat.max (now s) due;
                 timers := delete i (timers s) |})
  | None => None
  end.

(** Every code unit of the string is whitespace. *)
Definition blank (s : ustring) : Prop := Forall (λ c, isWhiteSpace c = true) s.

(** The shape local@domain.tld: three nonempty runs of code units that are
    neither whitespace nor [@], the first two separated by [@] and the last
    two by a dot. *)
Definition emailShape (s : ustring) : Prop :=
  ∃ l d t : ustring,
    s = l ++ lit "@" ++ d ++ lit "." ++ t ∧
    l ≠ [] ∧ d ≠ [] ∧ t ≠ [] ∧
    Forall (λ c, notSpaceNorAt c = true) l ∧
    Forall (λ c, notSpaceNorAt c = true) d ∧
    Forall (λ c, notSpaceNorAt c = true) t.

(** [s] occurs in [m] as a contiguous run. *)
Definition occursIn (s m : ustring) : Prop := ∃ pre post, m = pre ++ s ++ post.

End ContactForm.

(** * Contact form: the passing of time between two calls *)
Module FormClock.

Import ContactForm.

(** [dt] milliseconds go by and no callback runs. *)
Definition elapse (dt : nat) (s : page) : page :=
  {| fields := fields s; defaults := defaults s; submitText := submitText s;
     submitDisabled := submitDisabled s; formStatus := formStatus s;
     now := (now s + dt)%nat; timers := timers s |}.

(** The number of [@] code units in a string. *)
Definition countAt (s : list N) : nat :=
  length (filter (λ c, c = N_of_ascii "@"%char) s).

End FormClock.

(** * Rate limiting: [utils.throttle] and [utils.debounce]

    The wrapped function is arbitrary; what is kept of it is the log of its
    invocations, each with the time and the arguments.  Time is in
    milliseconds, and a timer callback never runs before it is due. *)
Module Throttle.

Section Wrapped.

Context {A : Type}.       (* the arguments of a call *)
Variable limit : nat.     (* utils.throttle(func, limit) *)

Record state : Type := {
  inThrottle : bool;            (* undefined at first, which is falsy *)
  now : nat;
  timers : list nat;            (* due times of pending reset callbacks *)
  invoked : list (nat * A)      (* func.apply(context, args), oldest first *)
}.

Definition idle : state :=
  {| inThrottle := false; now := 0; timers := []; invoked := [] |}.

(** A call of the function [throttle] returns. *)
Definition call (a : A) (s : state) : state :=
  if negb (inThrottle s) then
    {| inThrottle := true; now := now s;
       timers := timers s ++ [(now s + limit)%nat];
       invoked := invoked s ++ [(now s, a)] |}
  else s.

(** The timer callback [() => inThrottle = false], once it is due. *)
Definition expire (k : nat) (s : state) : state :=
  match timers s !! k with
  | Some due =>
      if (due <=? now s)%nat then
        {| inThrottle := false; now := now s;
           timers := delete k (timers s); invoked := invoked s |}
      else s
  | None => s
  end.

Definition elapse (dt : nat) (s : state) : state :=
  {| inThrottle := inThrottle s; now := (now s + dt)%nat;
     timers := timers s; invoked := invoked s |}.

Inductive event : Type :=
  | Call (a : A)
  | Expire (k : nat)
  | Elapse (dt : nat).

Definition step (e : event) (s : state) : state :=
  match e with
  | Call a => call a s
  | Expire k => expire k s
  | Elapse dt => elapse dt s
  end.

Definition run (es : list event) (s : state) : state :=
  foldl (λ acc e, step e acc) s es.

(** Successive invocations are at least [limit] apart. *)
Definition spaced (s : state) : Prop :=
  ∀ i p1 p2, invoked s !! i = Some p1 → invoked s !! S i = Some p2 →
    (p1.1 + limit ≤ p2.1)%nat.

(** The flag, the pending timer and the last invocation agree. *)
Definition armed (s : state) : Prop :=
  match last (invoked s) with
  | None => inThrottle s = false ∧ timers s = []
  | Some p =>
      if inThrottle s then timers s = [(p.1 + limit)%nat]
      else timers s = [] ∧ (p.1 + limit ≤ now s)%nat
  end.

End Wrapped.

Arguments state : clear implicits.
Arguments event : clear implicits.

End Throttle.

Module Debounce.

Section Wrapped.

Context {A : Type}.      (* the arguments of a call *)
Variable wait : nat.     (* utils.debounce(func, wait) *)

Record state : Type := {
  timeout : option nat;                (* the variable [timeout]: a timer id *)
  nextId : nat;                        (* the id the next setTimeout returns *)
  pending : list (nat * (nat * A));    (* id, due time, args of [later] *)
  now : nat;
  invoked : list (nat * A)             (* func(...args), oldest first *)
}.

Definition idle : state :=
  {| timeout := None; nextId := 0; pending := []; now := 0; invoked := [] |}.

(** [clearTimeout(id)]: nothing happens for an unknown or undefined id. *)
Definition clearTimeout (id : option nat) (l : list (nat * (nat * A)))
    : list (nat * (nat * A)) :=
  match id with
  | Some i => filter (λ x, x.1 ≠ i) l
  | None => l
  end.

(** A call of [executedFunction(...args)]. *)
Definition call (a : A) (s : state) : state :=
  {| timeout := Some (nextId s); nextId := S (nextId s);
     pending := clearTimeout (timeout s) (pending s)
                  ++ [(nextId s, ((now s + wait)%nat, a))];
     now := now s; invoked := invoked s |}.

(** The timer callback [later], once it is due:
    [clearTimeout(timeout); func(...args)]. *)
Definition fire (k : nat) (s : state) : state :=
  match pending s !! k with
  | Some (id, (due, a)) =>
      if (due <=? now s)%nat then
        {| timeout := timeout s; nextId := nextId s;
           pending := clearTimeout (timeout s) (delete k (pending s));
           now := now s; invoked := invoked s ++ [(now s, a)] |}
      else s
  | None => s
  end.

Definition elapse (dt : nat) (s : state) : state :=
  {| timeout := timeout s; nextId := nextId s; pending := pending s;
     now := (now s + dt)%nat; invoked := invoked s |}.

Inductive event : Type :=
  | Call (a : A)
  | Fire (k : nat)
  | Elapse (dt : nat).

Definition step (e : event) (s : state) : state :=
  match e with
  | Call a => call a s
  | Fire k => fire k s
  | Elapse dt => elapse dt s
  end.

Definition run (es : list event) (s : state) : state :=
  foldl (λ acc e, step e acc) s es.

(** No timer is pending, or only the one [timeout] names. *)
Definition single (s : state) : Prop :=
  pending s = [] ∨
  ∃ id due a, pending s = [(id, (due, a))] ∧ timeout s = Some id.

End Wrapped.

Arguments state : clear implicits.
Arguments event : clear implicits.

End Debounce.

(** * Animated scrolling: [utils.smoothScrollTo] *)
Module SmoothScroll.

(** What [smoothScrollTo] fixes before the first frame. *)
Record animation : Type := {
  startPosition : number;
  distance : number;
  duration : number
}.

(** What changes from frame to frame. *)
Record progress : Type := {
  startTime : option number;   (* [let startTime = null] *)
  scrolled : list number;      (* the y of each window.scrollTo(0, y) *)
  requested : bool             (* requestAnimationFrame(animation) is pending *)
}.

(** [smoothScrollTo(target, duration)] up to its first
    [requestAnimationFrame]; [top] is
    [targetElement.getBoundingClientRect().top], and [None] when
    [document.querySelector(target)] finds nothing. *)
Definition smoothScrollTo (top : option number) (pageYOffset duration : number)
    : option (animation * progress) :=
  match top with
  | None => None
  | Some t =>
      let targetPosition := (t + pageYOffset - Finite 80)%js in
      let startPosition := pageYOffset in
      let distance := (targetPosition - startPosition)%js in
      Some ({| startPosition := startPosition; distance := distance;
               duration := duration |},
            {| startTime := None; scrolled := []; requested := true |})
  end.

(** The callback [animation(currentTime)]. *)
Definition animationFrame (a : animation) (currentTime : number) (p : progress)
    : progress :=
  let startTime := match startTime p with
                   | None => currentTime
                   | Some t => t
                   end in
  let timeElapsed := (currentTime - startTime)%js in
  let run := (Utils.easeInOutCubic (timeElapsed / duration a) * distance a)%js in
  {| startTime := Some startTime;
     scrolled := scrolled p ++ [(startPosition a + run)%js];
     requested := (timeElapsed <? duration a)%js |}.

(** The browser runs the callback at a frame only if it was requested. *)
Definition frame (a : animation) (currentTime : number) (p : progress) : progress :=
  if requested p then animationFrame a currentTime p else p.

Definition play (a : animation) (times : list number) (p : progress) : progress :=
  foldl (λ acc t, frame a t acc) p times.

End SmoothScroll.

(** * Lazy image loading: [performance.lazyLoadImages] *)
Module LazyImages.

(** An [img[loading="lazy"]] element. *)
Record image : Type := {
  src : string;
  dataSrc : option string;     (* img.dataset.src, undefined without data-src *)
  imgClasses : ClassList.t
}.

Record state : Type := {
  images : list image;         (* document.querySelectorAll('img[loading="lazy"]') *)
  observed : gset nat          (* the targets of imageObserver *)
}.

(** [a || b] on a possibly undefined string and a string: undefined and the
    empty string are falsy. *)
Definition orElse (a : option string) (b : string) : string :=
  match a with
  | Some (String c rest) => String c rest
  | _ => b
  end.

(** What the callback does to an intersecting image:
    [img.src = img.dataset.src || img.src; img.classList.remove('lazy')]. *)
Definition load (im : image) : image :=
  {| src := orElse (dataSrc im) (src im); dataSrc := dataSrc im;
     imgClasses := ClassList.remove "lazy" (imgClasses im) |}.

Definition onEntry (s : state) (e : Reveal.entry) : state :=
  if Reveal.isIntersecting e then
    {| images := alter load (Reveal.target e) (images s);
       observed := observed s ∖ {[Reveal.target e]} |}
  else s.

(** The observer callback. *)
Definition callback (entries : list Reveal.entry) (s : state) : state :=
  foldl onEntry s entries.

(** [lazyLoadImages]; [supported] is ['IntersectionObserver' in window]. *)
Definition lazyLoadImages (supported : bool) (s : state) : state :=
  if supported then
    {| images := images s;
       observed := observed s ∪ list_to_set (seq 0 (length (images s))) |}
  else s.

(** Some entry of the batch reports image [j] as intersecting. *)
Definition reported (j : nat) (entries : list Reveal.entry) : Prop :=
  ∃ e, e ∈ entries ∧ Reveal.target e = j ∧ Reveal.isIntersecting e = true.

End LazyImages.

(** * Focus styling: [accessibility.setupFocusManagement] *)
Module Focus.

Inductive event : Type :=
  | KeyDown (key : string)
  | MouseDown.

(** The two listeners, acting on [document.body.classList]. *)
Definition step (body : ClassList.t) (e : event) : ClassList.t :=
  match e with
  | KeyDown key =>
      if bool_decide (key = "Tab") then ClassList.add "keyboard-navigation" body
      else body
  | MouseDown => ClassList.remove "keyboard-navigation" body
  end.

Definition run (es : list event) (body : ClassList.t) : ClassList.t :=
  foldl step body es.

(** What an event says about the input in use: a Tab key press says
    keyboard, a mouse press says pointer, any other key says nothing. *)
Definition keyboard (e : event) : option bool :=
  match e with
  | KeyDown key => if bool_decide (key = "Tab") then Some true else None
  | MouseDown => Some false
  end.

(** The last event of a sequence that says something. *)
Fixpoint lastInput (es : list event) : option bool :=
  match es with
  | [] => None
  | e :: rest =>
      match lastInput rest with
      | Some b => Some b
      | None => keyboard e
      end
  end.

End Focus.

(** * Sample inputs *)
Module Samples.

Definition viewport1 : Utils.viewport :=
  {| Utils.innerHeight := Finite 600; Utils.scrollHeight := Finite 1600;
     Utils.pageYOffset := Finite 250; Utils.docScrollTop := Finite 250 |}.

Definition homeLink : Navigation.link :=
  {| Navigation.href := "#home"; Navigation.dataSection := Some "home"%string;
     Navigation.linkClasses := ["nav-link"; "active"]%string |}.

Definition aboutLink : Navigation.link :=
  {| Navigation.href := "#about"; Navigation.dataSection := Some "about"%string;
     Navigation.linkClasses := ["nav-link"]%string |}.

(** A page as first loaded on a narrow screen. *)
Definition nav0 : Navigation.nav :=
  Navigation.initial ["mobile-toggle"]%string ["nav-links"]%string EmptyString
    [homeLink; aboutLink] 700.

(** The same page with the menu opened and the window widened afterwards. *)
Definition navWide : Navigation.nav :=
  Navigation.run [Navigation.Click Navigation.OnToggle true;
                  Navigation.Resize 1024] nav0.

(** Scroll-spy reports that mention no section but home as intersecting,
    with a menu click in between. *)
Definition homeEvents : list Navigation.event :=
  [Navigation.Intersection
     [{| Navigation.targetId := "home"; Navigation.spyIntersecting := true |}];
   Navigation.Click Navigation.OnToggle true;
   Navigation.Intersection
     [{| Navigation.targetId := "about"; Navigation.spyIntersecting := false |};
      {| Navigation.targetId := "home"; Navigation.spyIntersecting := true |}]].

(** Three reveal elements, all hidden and observed. *)
Definition reveal0 : Reveal.state :=
  Reveal.init {| Reveal.classes := [["reveal"]; ["reveal"]; ["reveal"]]%string;
                 Reveal.observed := ∅; Reveal.now := 0; Reveal.timers := [] |}.

(** Element 1 enters the viewport, its timer fires, then it is reported
    leaving and entering again. *)
Definition revealEvents : list Reveal.event :=
  [Reveal.Deliver [{| Reveal.target := 0; Reveal.isIntersecting := false |};
                   {| Reveal.target := 1; Reveal.isIntersecting := true |}];
   Reveal.Timeout 0;
   Reveal.Deliver [{| Reveal.target := 1; Reveal.isIntersecting := false |}];
   Reveal.Deliver [{| Reveal.target := 1; Reveal.isIntersecting := true |}];
   Reveal.Timeout 0].

(** A whitespace-only name with an otherwise well-formed record. *)
Definition spaceName : ContactForm.formData :=
  {| ContactForm.name := Text.lit " ";
     ContactForm.email := Text.lit "a@b.com";
     ContactForm.message := Text.lit "hi" |}.

Definition emptyName : ContactForm.formData :=
  {| ContactForm.name := [];
     ContactForm.email := Text.lit "a@b.com";
     ContactForm.message := Text.lit "hi" |}.

Definition badEmail : ContactForm.formData :=
  {| ContactForm.name := Text.lit "A";
     ContactForm.email := Text.lit "not-an-email";
     ContactForm.message := Text.lit "hi" |}.

Definition goodRecord : ContactForm.formData :=
  {| ContactForm.name := Text.lit "Ada";
     ContactForm.email := Text.lit "ada@mail.example.org";
     ContactForm.message := Text.lit "hello there" |}.

Definition noFields : ContactForm.formData :=
  {| ContactForm.name := []; ContactForm.email := [];
     ContactForm.message := [] |}.

(** A page whose form holds the given record, with nothing pending. *)
Definition pageWith (d : ContactForm.formData) : ContactForm.page :=
  {| ContactForm.fields := d; ContactForm.defaults := noFields;
     ContactForm.submitText := Text.lit "Send Message";
     ContactForm.submitDisabled := false;
     ContactForm.formStatus :=
       Some {| ContactForm.textContent := [];
               ContactForm.className := "form-status" |};
     ContactForm.now := 0; ContactForm.timers := [] |}.

(** Rubber-band overscroll above the top of a scrollable page. *)
Definition viewportAbove : Utils.viewport :=
  {| Utils.innerHeight := Finite 600; Utils.scrollHeight := Finite 1600;
     Utils.pageYOffset := Finite (-30); Utils.docScrollTop := Finite (-30) |}.

(** A page exactly as tall as the window. *)
Definition viewportShort : Utils.viewport :=
  {| Utils.innerHeight := Finite 600; Utils.scrollHeight := Finite 600;
     Utils.pageYOffset := Finite 0; Utils.docScrollTop := Finite 0 |}.

(** Scroll events 4 ms and 10 ms after a first one, throttled at 10 ms;
    the argument stands for the scroll offset. *)
Definition throttleEvents : list (Throttle.event nat) :=
  [Throttle.Call 1%nat; Throttle.Elapse 4; Throttle.Call 2%nat;
   Throttle.Elapse 6; Throttle.Expire 0; Throttle.Call 3%nat].

(** One call whose window has ended. *)
Definition throttleWindowOver : list (Throttle.event nat) :=
  [Throttle.Call 1%nat; Throttle.Elapse 10; Throttle.Expire 0].

(** A first call, 30 ms before the next one. *)
Definition debounceEvents : list (Debounce.event nat) :=
  [Debounce.Call 1%nat; Debounce.Elapse 30].

(** An animation after its first frame, which came at time 1000. *)
Definition scrollProgress : SmoothScroll.progress :=
  {| SmoothScroll.startTime := Some (Finite 1000);
     SmoothScroll.scrolled := [Finite 200];
     SmoothScroll.requested := true |}.

(** A page whose form holds the given record and which has no status
    element. *)
Definition pageWithoutStatus (d : ContactForm.formData) : ContactForm.page :=
  {| ContactForm.fields := d; ContactForm.defaults := noFields;
     ContactForm.submitText := Text.lit "Send Message";
     ContactForm.submitDisabled := false;
     ContactForm.formStatus := None;
     ContactForm.now := 0; ContactForm.timers := [] |}.

(** Two lazy images, the second without a deferred source. *)
Definition lazy0 : LazyImages.state :=
  LazyImages.lazyLoadImages true
    {| LazyImages.images :=
         [{| LazyImages.src := "placeholder.png";
             LazyImages.dataSrc := Some "photo.jpg"%string;
             LazyImages.imgClasses := ["lazy"; "thumb"]%string |};
          {| LazyImages.src := "logo.png"; LazyImages.dataSrc := None;
             LazyImages.imgClasses := ["lazy"]%string |}];
       LazyImages.observed := ∅ |}.

End Samples.

(** * Properties *)

(** ** Numbers and utilities *)
Section UtilsFacts.

Import Utils.

Lemma ltb_finite (p q : Q) :
  (Finite p <? Finite q)%js = true ↔ p < q.
Proof.
  unfold ltb. destruct (Qlt_le_dec p q) as [H|H]; split; intros; try done.
  exfalso. apply (Qlt_not_le _ _ H0 H).
Qed.

Lemma easeIn_finite (t : Q) : easeIn (Finite t) = Finite (4 * t * t * t).
Proof. reflexivity. Qed.

Lemma easeOut_finite (t : Q) :
  easeOut (Finite t) =
  Finite ((t + - 1) * (2 * t + - 2) * (2 * t + - 2) + 1).
Proof. reflexivity. Qed.

Lemma easeIn_range (t : Q) : 0 <= t → t < 1 # 2 → 0 <= 4 * t * t * t <= 1.
Proof.
  intros H0 H1.
  assert (Ht2 : 0 <= t * t) by (apply Qmult_le_0_compat; assumption).
  assert (Ht3 : 0 <= t * t * t) by (apply Qmult_le_0_compat; assumption).
  assert (Hb2 : t * t <= 1 # 4) by nra.
  assert (Hb3 : t * t * t <= 1 # 8) by nra.
  split; lra.
Qed.

Lemma easeOut_range (t : Q) :
  1 # 2 <= t → t <= 1 →
  0 <= (t + - 1) * (2 * t + - 2) * (2 * t + - 2) + 1 <= 1.
Proof.
  intros H0 H1.
  set (u := 1 - t).
  assert (Hu0 : 0 <= u) by (unfold u; lra).
  assert (Hu1 : u <= 1 # 2) by (unfold u; lra).
  assert (Hu2 : 0 <= u * u) by (apply Qmult_le_0_compat; assumption).
  assert (Hu3 : 0 <= u * u * u) by (apply Qmult_le_0_compat; assumption).
  assert (Hb2 : u * u <= 1 # 4) by nra.
  assert (Hb3 : u * u * u <= 1 # 8) by nra.
  assert (E : (t + - 1) * (2 * t + - 2) * (2 * t + - 2) + 1 == 1 - 4 * (u * u * u))
    by (unfold u; ring).
  rewrite E. split; lra.
Qed.

(** C9: the easing curve starts at 0, ends at 1, both of its branches give
    1/2 at t = 1/2, and on [0, 1] its value stays within [0, 1]. *)
Theorem easeInOutCubic_endpoints_and_range :
  (easeInOutCubic (Finite 0) =~ Finite 0)%js ∧
  (easeInOutCubic (Finite 1) =~ Finite 1)%js ∧
  (easeIn (Finite (1 # 2)) =~ Finite (1 # 2))%js ∧
  (easeOut (Finite (1 # 2)) =~ Finite (1 # 2))%js ∧
  ∀ t : Q, 0 <= t <= 1 →
    ∃ v : Q, easeInOutCubic (Finite t) = Finite v ∧ 0 <= v <= 1.
Proof.
  repeat split; try reflexivity.
  intros t [H0 H1]. unfold easeInOutCubic.
  destruct (Finite t <? Finite (1 # 2))%js eqn:E.
  - apply ltb_finite in E. eexists. split; [apply easeIn_finite|].
    by apply easeIn_range.
  - eexists. split; [apply easeOut_finite|].
    apply easeOut_range; [|done].
    destruct (Qlt_le_dec t (1 # 2)) as [Hlt|Hle]; [|done].
    apply ltb_finite in Hlt. congruence.
Qed.

Lemma easeInOutCubic_quarter :
  ∃ v : Q, easeInOutCubic (Finite (1 # 4)) = Finite v ∧ 0 <= v <= 1.
Proof.
  apply (proj2 (proj2 (proj2 (proj2 easeInOutCubic_endpoints_and_range)))).
  split; lra.
Defined.

(** On binary64 itself the three points evaluate to the same values. *)
Example easeInOutCubic_binary64_points :
  Binary64.easeInOutCubic 0%float = 0%float ∧
  Binary64.easeInOutCubic 1%float = 1%float ∧
  Binary64.easeIn 0.5%float = 0.5%float ∧
  Binary64.easeOut 0.5%float = 0.5%float.
Proof. repeat split; reflexivity. Qed.

Lemma min_one_of_le (q : Q) : q <= 1 → Number.min (Finite q) (Finite 1) = Finite q.
Proof.
  intros H. unfold Number.min, ltb.
  destruct (Qlt_le_dec 1 q) as [Hlt|_]; [|done].
  exfalso. apply (Qlt_not_le _ _ Hlt H).
Qed.

Lemma div_finite (p q : Q) : ¬ q == 0 → (Finite p / Finite q)%js = Finite (p / q).
Proof.
  intros H. unfold div, Qis_zero.
  destruct (Qeq_bool q 0) eqn:E; [|done].
  apply Qeq_bool_eq in E. contradiction.
Qed.

Lemma ratio_range (s m : Q) : 0 < m → 0 <= s <= m → 0 <= s / m <= 1.
Proof.
  intros Hm [H0 H1]. split.
  - apply Qle_shift_div_l; [done|]. lra.
  - apply Qle_shift_div_r; [done|]. lra.
Qed.

(** C1: on a page that can scroll (maxScroll > 0), for every offset s in
    [0, maxScroll] the progress is clamp(s / maxScroll, 0, 1), it lies in
    [0, 1], it is 0 at s = 0 and 1 at s = maxScroll, and the bar's width is
    that value times 100, as a percentage. *)
Theorem getScrollProgress_clamped (v : viewport) (s m : Q) :
  scrollTop v = Finite s →
  trackLength v = Finite m →
  0 < m →
  0 <= s <= m →
  ∃ p : Q,
    getScrollProgress v = Finite p ∧
    p == ProgressBar.clamp (s / m) 0 1 ∧
    0 <= p <= 1 ∧
    (s == 0 → p == 0) ∧
    (s == m → p == 1) ∧
    ProgressBar.update v = ProgressBar.Percent (Finite (p * 100)).
Proof.
  intros Hs Ht Hm Hr.
  pose proof (ratio_range s m Hm Hr) as [R0 R1].
  assert (Hne : ¬ m == 0) by lra.
  assert (G : getScrollProgress v = Finite (s / m)).
  { unfold getScrollProgress. rewrite Hs, Ht, div_finite by done.
    by apply min_one_of_le. }
  exists (s / m). repeat split; try done.
  - unfold ProgressBar.clamp.
    rewrite (Q.min_l _ _ R1), (Q.max_r _ _ R0). reflexivity.
  - intros E. rewrite E. field. done.
  - intros E. rewrite E. field. done.
  - unfold ProgressBar.update. by rewrite G.
Qed.

Lemma getScrollProgress_clamped_sample :
  ∃ p : Q,
    getScrollProgress Samples.viewport1 = Finite p ∧
    p == ProgressBar.clamp (250 / 1000) 0 1 ∧
    0 <= p <= 1 ∧
    (250 == 0 → p == 0) ∧
    (250 == 1000 → p == 1) ∧
    ProgressBar.update Samples.viewport1 = ProgressBar.Percent (Finite (p * 100)).
Proof.
  apply (getScrollProgress_clamped Samples.viewport1 250 1000).
  - reflexivity.
  - reflexivity.
  - reflexivity.
  - split; discriminate.
Defined.

(** A page exactly as tall as the window has a track of length 0, and the
    quotient 0/0 is NaN: the hypothesis maxScroll > 0 cannot be dropped. *)
Example getScrollProgress_no_track :
  getScrollProgress {| innerHeight := Finite 600; scrollHeight := Finite 600;
                       pageYOffset := Finite 0; docScrollTop := Finite 0 |} = NaN.
Proof. reflexivity. Qed.

Example getScrollProgress_binary64_points :
  Binary64.getScrollProgress 600 1600 0 0 = 0%float ∧
  Binary64.getScrollProgress 600 1600 1000 1000 = 1%float ∧
  Binary64.getScrollProgress 600 1600 250 250 = 0.25%float ∧
  PrimFloat.is_nan (Binary64.getScrollProgress 600 600 0 0) = true.
Proof. repeat split; reflexivity. Qed.

End UtilsFacts.

(** ** Class lists *)
Section ClassListFacts.

Import ClassList.

Lemma remove_absent (c : string) (l : t) : c ∉ l → remove c l = l.
Proof.
  unfold remove. induction l as [|x l IH]; [done|].
  intros H. apply not_elem_of_cons in H as [Hx Hl].
  rewrite filter_cons_True by done. by rewrite IH.
Qed.

Lemma remove_gone (c : string) (l : t) : c ∉ remove c l.
Proof.
  unfold remove. intros H. apply list_elem_of_filter in H as [H _]. done.
Qed.

Lemma remove_remove (c : string) (l : t) : remove c (remove c l) = remove c l.
Proof. apply remove_absent, remove_gone. Qed.

Lemma remove_add (c : string) (l : t) : c ∉ l → remove c (add c l) = l.
Proof.
  intros H. unfold add, contains. rewrite bool_decide_eq_false_2 by done.
  unfold remove. rewrite filter_app. fold (remove c l).
  rewrite remove_absent by done.
  rewrite filter_cons_False by (intros E; by apply E).
  rewrite filter_nil. apply app_nil_r.
Qed.

Lemma add_present (c : string) (l : t) : c ∈ add c l.
Proof.
  unfold add, contains. case_bool_decide; [done|].
  apply elem_of_app. right. apply list_elem_of_singleton. done.
Qed.

End ClassListFacts.

(** ** Mobile menu *)
Section MenuFacts.

Import Navigation.

(** Closedness of a given state, by evaluation. *)
Ltac sample_closed :=
  unfold closed; cbn; repeat split; try reflexivity;
  by apply (bool_decide_unpack _).

Lemma closeMobileNav_closed (s : nav) : closed (closeMobileNav s).
Proof.
  unfold closed. cbn. repeat split; try apply remove_gone.
Qed.

Lemma closeMobileNav_fixes_closed (s : nav) : closed s → closeMobileNav s = s.
Proof.
  intros (Ho & Ht & Hn & Hb). destruct s as [o cs tc nc ov ls w].
  cbn in *. subst. unfold closeMobileNav. cbn.
  by rewrite !remove_absent.
Qed.

Lemma toggleClick_of_closed (s : nav) :
  closed s → closeMobileNav (toggleClick s) = s.
Proof.
  intros (Ho & Ht & Hn & Hb). destruct s as [o cs tc nc ov ls w].
  cbn in *. subst. unfold closeMobileNav, toggleClick. cbn.
  by rewrite !remove_add.
Qed.

Lemma toggleClick_of_open (s : nav) :
  isNavOpen s = true → toggleClick s = closeMobileNav s.
Proof.
  intros Ho. unfold toggleClick, closeMobileNav. rewrite Ho. reflexivity.
Qed.

Lemma toggleClick_opens (s : nav) :
  isNavOpen s = false → isNavOpen (toggleClick s) = true.
Proof. intros Ho. cbn. by rewrite Ho. Qed.

(** C8: closing a closed menu changes nothing, and closing twice is the
    same as closing once, on every state. *)
Theorem closeMobileNav_idempotent :
  (∀ s : nav, closed s → closeMobileNav s = s) ∧
  (∀ s : nav, closeMobileNav (closeMobileNav s) = closeMobileNav s).
Proof.
  split.
  - apply closeMobileNav_fixes_closed.
  - intros s. apply closeMobileNav_fixes_closed, closeMobileNav_closed.
Qed.

Lemma closeMobileNav_idempotent_sample :
  closeMobileNav Samples.nav0 = Samples.nav0.
Proof.
  apply (proj1 closeMobileNav_idempotent Samples.nav0).
  sample_closed.
Defined.

(** C6: from a closed menu, the toggle click opens it, and each way of
    closing it afterwards gives back the state before the click: the
    toggle's and the link container's class lists, the body's overflow
    style, and everything else. *)
Theorem mobile_menu_round_trip (s : nav) :
  closed s →
  isNavOpen (toggleClick s) = true ∧
  closeMobileNav (toggleClick s) = s ∧
  toggleClick (toggleClick s) = s ∧
  run [Click OnToggle true; Click OnToggle true] s = s ∧
  run [Click OnToggle true; Click Elsewhere false] s = s ∧
  run [Click OnToggle true; KeyDown "Escape"] s = s ∧
  ((innerWidth s <= 768)%Z →
   ∀ b, run [Click OnToggle true; Click OnNavLink b] s = s).
Proof.
  intros Hc.
  pose proof (toggleClick_of_closed s Hc) as Hrt.
  assert (Ho : isNavOpen (toggleClick s) = true)
    by (apply toggleClick_opens, Hc).
  assert (Hs : isNavOpen s = false) by apply Hc.
  assert (Htt : toggleClick (toggleClick s) = s)
    by (by rewrite toggleClick_of_open).
  repeat split; try done.
  - cbn. unfold documentClick at 2. cbn [negb andb].
    rewrite andb_false_r. rewrite Htt.
    unfold documentClick. by rewrite Hs.
  - cbn. unfold documentClick at 2. rewrite andb_false_r.
    unfold documentClick. by rewrite Ho.
  - cbn. unfold documentClick. rewrite andb_false_r.
    unfold keydown. rewrite Ho. by rewrite bool_decide_eq_true_2.
  - intros Hw b. cbn. unfold documentClick at 2. rewrite andb_false_r.
    unfold linkClick. replace (innerWidth (toggleClick s)) with (innerWidth s) by done.
    apply Z.leb_le in Hw. rewrite Hw, Hrt.
    unfold documentClick. by rewrite Hs.
Qed.

Lemma mobile_menu_round_trip_sample :
  isNavOpen (toggleClick Samples.nav0) = true ∧
  closeMobileNav (toggleClick Samples.nav0) = Samples.nav0 ∧
  toggleClick (toggleClick Samples.nav0) = Samples.nav0 ∧
  run [Click OnToggle true; Click OnToggle true] Samples.nav0 = Samples.nav0 ∧
  run [Click OnToggle true; Click Elsewhere false] Samples.nav0 = Samples.nav0 ∧
  run [Click OnToggle true; KeyDown "Escape"] Samples.nav0 = Samples.nav0 ∧
  ((innerWidth Samples.nav0 <= 768)%Z →
   ∀ b, run [Click OnToggle true; Click OnNavLink b] Samples.nav0 = Samples.nav0).
Proof.
  apply (mobile_menu_round_trip Samples.nav0).
  sample_closed.
Defined.

End MenuFacts.

(** ** Close and open triggers *)
Section TriggerFacts.

Import Navigation.

Lemma documentClick_closed_id (b : bool) (s : nav) :
  isNavOpen s = false → documentClick b s = s.
Proof. intros H. unfold documentClick. by rewrite H. Qed.

Lemma setActiveLink_frame (id : string) (s : nav) :
  let s' := (setActiveLink id s).1 in
  isNavOpen s' = isNavOpen s ∧ menu_view s' = menu_view s ∧
  innerWidth s' = innerWidth s.
Proof. unfold setActiveLink. case_bool_decide; done. Qed.

Lemma spyCallback_isNavOpen (es : list spy_entry) (s : nav) :
  isNavOpen (spyCallback es s).1 = isNavOpen s.
Proof.
  unfold spyCallback. generalize (@nil dom_write).
  revert s. induction es as [|e es IH]; intros s ws; [done|].
  cbn [foldl]. destruct (spyIntersecting e).
  - rewrite IH. cbn [fst]. apply setActiveLink_frame.
  - apply IH.
Qed.

Lemma linkClick_keeps_closed (s : nav) :
  isNavOpen s = false → isNavOpen (linkClick s) = false.
Proof. intros H. unfold linkClick. by destruct (_ <=? _)%Z. Qed.

(** C7 (as the code has it): with the menu open, a click outside the
    navbar and an Escape keydown close it, and so does a nav-link click
    when the window is at most 768 pixels wide; closing clears the flag,
    both [active] classes and the overflow style.  Only the toggle-button
    click opens a closed menu. *)
Theorem mobile_menu_triggers :
  (∀ s : nav, isNavOpen s = true →
     (∀ b, (innerWidth s <= 768)%Z → closed (step (Click OnNavLink b) s)) ∧
     (∀ t, closed (step (Click t false) s)) ∧
     closed (step (KeyDown "Escape") s)) ∧
  (∀ s : nav, isNavOpen s = false →
     isNavOpen (step (Click OnToggle true) s) = true) ∧
  (∀ (s : nav) (e : event),
     isNavOpen s = false → isNavOpen (step e s) = true →
     ∃ b, e = Click OnToggle b).
Proof.
  split; [|split].
  - intros s Ho. split; [|split].
    + intros b Hw. apply Z.leb_le in Hw. cbn [step]. unfold linkClick.
      rewrite Hw. rewrite documentClick_closed_id by done.
      apply closeMobileNav_closed.
    + intros [| |]; cbn [step].
      * rewrite toggleClick_of_open by done.
        rewrite documentClick_closed_id by done. apply closeMobileNav_closed.
      * unfold linkClick. destruct (_ <=? _)%Z.
        -- rewrite documentClick_closed_id by done. apply closeMobileNav_closed.
        -- unfold documentClick. rewrite Ho. apply closeMobileNav_closed.
      * unfold documentClick. rewrite Ho. apply closeMobileNav_closed.
    + cbn [step]. unfold keydown. rewrite Ho.
      rewrite bool_decide_eq_true_2 by done. apply closeMobileNav_closed.
  - intros s Hc. cbn [step]. unfold documentClick.
    rewrite toggleClick_opens by done. cbn [negb andb].
    by apply toggleClick_opens.
  - intros s e Hc Ho. destruct e as [t b|k|w|es]; [destruct t|..]; cbn [step] in Ho.
    + by exists b.
    + rewrite documentClick_closed_id in Ho by (by apply linkClick_keeps_closed).
      rewrite linkClick_keeps_closed in Ho by done. discriminate.
    + rewrite documentClick_closed_id in Ho by done. congruence.
    + unfold keydown in Ho. rewrite Hc, andb_false_r in Ho. congruence.
    + cbn in Ho. congruence.
    + rewrite spyCallback_isNavOpen in Ho. congruence.
Qed.

Lemma mobile_menu_triggers_sample :
  closed (step (KeyDown "Escape") Samples.navWide) ∧
  closed (step (Click Elsewhere false) Samples.navWide).
Proof.
  destruct (proj1 mobile_menu_triggers Samples.navWide) as (_ & Hout & Hesc).
  - reflexivity.
  - split; [exact Hesc | exact (Hout Elsewhere)].
Defined.

(** C7 as stated fails: with the menu open and the window wider than 768
    pixels, a click on a nav link inside the navbar leaves it open. *)
Lemma nav_link_click_on_wide_window_stays_open :
  isNavOpen Samples.navWide = true ∧
  step (Click OnNavLink true) Samples.navWide = Samples.navWide ∧
  ¬ (∀ s : nav, isNavOpen s = true →
       isNavOpen (step (Click OnNavLink true) s) = false).
Proof.
  split; [reflexivity|]. split; [reflexivity|].
  intros H. specialize (H Samples.navWide eq_refl). discriminate H.
Qed.

End TriggerFacts.

(** ** Scroll spy *)
Section ScrollSpyFacts.

Import Navigation.

Lemma setActiveLink_same (id : string) (s : nav) :
  currentSection s = id → setActiveLink id s = (s, []).
Proof. intros H. unfold setActiveLink. by rewrite bool_decide_eq_true_2. Qed.

Lemma setActiveLink_current (id : string) (s : nav) :
  currentSection (setActiveLink id s).1 = id.
Proof. unfold setActiveLink. case_bool_decide; done. Qed.

Lemma setActiveLink_writes (id : string) (s : nav) :
  currentSection s ≠ id →
  (setActiveLink id s).2 =
    imap (λ i l, {| w_link := i; w_class := "active";
                   w_force := isActive id l |}) (navLinkItems s).
Proof. intros H. unfold setActiveLink. by rewrite bool_decide_eq_false_2. Qed.

(** C5 (as the code has it): of two calls in a row with the same id, the
    second never touches a class and leaves the state as it is; the first
    makes one [toggle] call per nav link, in order, when the id differs
    from currentSection, and none when it equals it.  So the class update
    runs at most once. *)
Theorem setActiveLink_twice (id : string) (s : nav) :
  let r1 := setActiveLink id s in
  let r2 := setActiveLink id r1.1 in
  r2 = (r1.1, []) ∧
  (currentSection s ≠ id →
     r1.2 ++ r2.2 =
       imap (λ i l, {| w_link := i; w_class := "active";
                      w_force := isActive id l |}) (navLinkItems s) ∧
     length (r1.2 ++ r2.2) = length (navLinkItems s)) ∧
  (currentSection s = id → r1 = (s, []) ∧ r1.2 ++ r2.2 = []).
Proof.
  cbn zeta.
  assert (H2 : setActiveLink id (setActiveLink id s).1 = ((setActiveLink id s).1, []))
    by apply setActiveLink_same, setActiveLink_current.
  split; [exact H2|]. rewrite H2. cbn [snd]. rewrite app_nil_r. split.
  - intros Hne. rewrite setActiveLink_writes by done.
    split; [done|]. by rewrite length_imap.
  - intros He. by rewrite setActiveLink_same.
Qed.

Lemma setActiveLink_twice_sample :
  let r1 := setActiveLink "about" Samples.nav0 in
  let r2 := setActiveLink "about" r1.1 in
  length (r1.2 ++ r2.2) = 2%nat ∧ r2 = (r1.1, []).
Proof.
  destruct (setActiveLink_twice "about" Samples.nav0) as (H2 & Hne & _).
  destruct Hne as [_ Hlen]; [discriminate|].
  split; [exact Hlen | exact H2].
Defined.

(** C5 as stated fails: two calls with the id that is already current make
    no class update at all, not one. *)
Lemma setActiveLink_twice_current_section_no_update :
  setActiveLink "home" Samples.nav0 = (Samples.nav0, []) ∧
  setActiveLink "home" (setActiveLink "home" Samples.nav0).1 = (Samples.nav0, []) ∧
  ¬ (∀ (id : string) (s : nav), navLinkItems s ≠ [] →
       (setActiveLink id s).2 ++ (setActiveLink id (setActiveLink id s).1).2 ≠ []).
Proof.
  split; [reflexivity|]. split; [reflexivity|].
  intros H. apply (H "home" Samples.nav0); [discriminate | reflexivity].
Qed.

Lemma spyCallback_onlyHome (es : list spy_entry) (s : nav) :
  currentSection s = "home" →
  Forall (λ en, spyIntersecting en = true → targetId en = "home") es →
  spyCallback es s = (s, []).
Proof.
  intros Hc Hes. unfold spyCallback.
  induction Hes as [|e es He _ IH]; [done|].
  cbn [foldl]. destruct (spyIntersecting e) eqn:E; [|exact IH].
  rewrite setActiveLink_same by (by rewrite He). exact IH.
Qed.

Lemma step_onlyHome (e : event) (s : nav) :
  currentSection s = "home" → onlyHome e →
  currentSection (step e s) = "home" ∧ navLinkItems (step e s) = navLinkItems s.
Proof.
  intros Hc He. destruct e as [t b|k|w|es]; cbn [step].
  - unfold documentClick, linkClick.
    destruct t; repeat (match goal with |- context [if ?c then _ else _] =>
                                      destruct c end); done.
  - unfold keydown. by destruct (_ && _).
  - done.
  - by rewrite spyCallback_onlyHome.
Qed.

Lemma run_onlyHome (es : list event) (s : nav) :
  currentSection s = "home" → Forall onlyHome es →
  currentSection (run es s) = "home" ∧ navLinkItems (run es s) = navLinkItems s.
Proof.
  intros Hc Hes. revert s Hc.
  induction Hes as [|e es He _ IH]; intros s Hc; [done|].
  destruct (step_onlyHome e s Hc He) as [Hc' Hl'].
  unfold run. cbn [foldl]. fold (run es (step e s)).
  destruct (IH _ Hc') as [H1 H2]. split; [done|]. by rewrite H2.
Qed.

(** C10: currentSection starts as home, so a call setActiveLink('home')
    on the initial state writes nothing, and as long as the scroll spy has
    reported no other section as intersecting, whatever else happens, the
    nav links' class lists are the ones the page started with and a further
    call with home is again a no-op. *)
Theorem home_link_untouched_until_other_section
    (tc nc : ClassList.t) (ov : string) (links : list link) (w : Z)
    (es : list event) :
  let s0 := initial tc nc ov links w in
  Forall onlyHome es →
  setActiveLink "home" s0 = (s0, []) ∧
  navLinkItems (run es s0) = links ∧
  currentSection (run es s0) = "home" ∧
  setActiveLink "home" (run es s0) = (run es s0, []).
Proof.
  intros s0 Hes.
  destruct (run_onlyHome es s0 eq_refl Hes) as [Hc Hl].
  split; [reflexivity|]. split; [exact Hl|]. split; [exact Hc|].
  by apply setActiveLink_same.
Qed.

Lemma home_link_untouched_sample :
  navLinkItems (run Samples.homeEvents Samples.nav0)
    = [Samples.homeLink; Samples.aboutLink] ∧
  currentSection (run Samples.homeEvents Samples.nav0) = "home".
Proof.
  destruct (home_link_untouched_until_other_section
              ["mobile-toggle"] ["nav-links"] EmptyString
              [Samples.homeLink; Samples.aboutLink] 700 Samples.homeEvents)
    as (_ & Hl & Hc & _).
  - repeat constructor; cbn; intros; try reflexivity; discriminate.
  - split; [exact Hl | exact Hc].
Defined.

End ScrollSpyFacts.

(** ** Reveal-on-scroll *)
Section RevealFacts.

Import Reveal.

Lemma onEntry_classes (e : entry) (k : nat) (s : state) :
  classes (onEntry e k s) = classes s.
Proof. unfold onEntry. by destruct (isIntersecting e). Qed.

Lemma onEntry_observed (e : entry) (k : nat) (s : state) :
  observed (onEntry e k s) ⊆ observed s.
Proof.
  unfold onEntry. destruct (isIntersecting e); [|done].
  cbn. by apply subseteq_difference_l.
Qed.

Lemma callbackFrom_classes (es : list entry) (k : nat) (s : state) :
  classes (callbackFrom k es s) = classes s.
Proof.
  revert k s. induction es as [|e es IH]; intros k s; [done|].
  cbn. rewrite IH. apply onEntry_classes.
Qed.

Lemma callbackFrom_observed (es : list entry) (k : nat) (s : state) :
  observed (callbackFrom k es s) ⊆ observed s.
Proof.
  revert k s. induction es as [|e es IH]; intros k s; [done|].
  cbn. etrans; [apply IH|]. apply onEntry_observed.
Qed.

Lemma callbackFrom_unobserves (es : list entry) (k : nat) (s : state) (e : entry) :
  e ∈ es → isIntersecting e = true →
  target e ∉ observed (callbackFrom k es s).
Proof.
  revert k s. induction es as [|x es IH]; intros k s Hin Hi.
  - by apply elem_of_nil in Hin.
  - cbn. apply elem_of_cons in Hin as [->|Hin]; [|by apply IH].
    intros H. apply callbackFrom_observed in H.
    unfold onEntry in H. rewrite Hi in H. cbn in H.
    apply elem_of_difference in H as [_ H]. apply H. by apply elem_of_singleton.
Qed.

Lemma addShow_shown (i t : nat) (s : state) :
  shown i s = true → shown i (addShow t s) = true.
Proof.
  unfold shown, addShow. cbn. intros H.
  destruct (decide (t = i)) as [->|Hne].
  - rewrite list_lookup_alter_eq. destruct (classes s !! i) as [cl|]; [|done].
    cbn. apply bool_decide_eq_true_2, add_present.
  - by rewrite list_lookup_alter_ne.
Qed.

(** A pending timer for a reveal element shows it when it fires. *)
Lemma timeout_shows (i k due : nat) (s : state) :
  (i < length (classes s))%nat → timers s !! k = Some (due, i) →
  shown i (step (Timeout k) s) = true.
Proof.
  intros Hi Hk. cbn. rewrite Hk. unfold shown, addShow. cbn.
  rewrite list_lookup_alter_eq.
  destruct (lookup_lt_is_Some_2 _ _ Hi) as [cl ->]. cbn.
  apply bool_decide_eq_true_2, add_present.
Qed.

Lemma step_shown (i : nat) (e : event) (s : state) :
  shown i s = true → shown i (step e s) = true.
Proof.
  intros H. destruct e as [es|k]; cbn.
  - unfold shown, callback. by rewrite callbackFrom_classes.
  - destruct (timers s !! k) as [[due t]|]; [|done]. by apply addShow_shown.
Qed.

Lemma step_observed (e : event) (s : state) : observed (step e s) ⊆ observed s.
Proof.
  destruct e as [es|k]; cbn.
  - apply callbackFrom_observed.
  - by destruct (timers s !! k) as [[due t]|].
Qed.

Lemma run_cons (e : event) (es : list event) (s : state) :
  run (e :: es) s = run es (step e s).
Proof. reflexivity. Qed.

Lemma run_shown (i : nat) (es : list event) (s : state) :
  shown i s = true → shown i (run es s) = true.
Proof.
  revert s. induction es as [|e es IH]; intros s H; [done|].
  rewrite run_cons. by apply IH, step_shown.
Qed.

Lemma run_observed (es : list event) (s : state) : observed (run es s) ⊆ observed s.
Proof.
  revert s. induction es as [|e es IH]; intros s; [done|].
  rewrite run_cons. etrans; [apply IH|apply step_observed].
Qed.

Lemma trace_head (es : list event) (s : state) :
  ∃ tl, trace es s = s :: tl.
Proof. destruct es; cbn; eauto. Qed.

Lemma reveals_cons (i : nat) (e : event) (es : list event) (s : state) :
  reveals i (trace (e :: es) s) =
  ((if negb (shown i s) && shown i (step e s) then 1 else 0)
   + reveals i (trace es (step e s)))%nat.
Proof.
  cbn [trace]. destruct (trace_head es (step e s)) as [tl ->]. reflexivity.
Qed.

Lemma hides_cons (i : nat) (e : event) (es : list event) (s : state) :
  hides i (trace (e :: es) s) =
  ((if shown i s && negb (shown i (step e s)) then 1 else 0)
   + hides i (trace es (step e s)))%nat.
Proof.
  cbn [trace]. destruct (trace_head es (step e s)) as [tl ->]. reflexivity.
Qed.

Lemma reveals_of_shown (i : nat) (es : list event) (s : state) :
  shown i s = true → reveals i (trace es s) = 0%nat.
Proof.
  revert s. induction es as [|e es IH]; intros s H; [done|].
  rewrite reveals_cons, H. cbn [negb andb]. apply IH. by apply step_shown.
Qed.

Lemma reveals_at_most_once (i : nat) (es : list event) (s : state) :
  (reveals i (trace es s) ≤ 1)%nat.
Proof.
  revert s. induction es as [|e es IH]; intros s; [cbn; lia|].
  rewrite reveals_cons.
  destruct (negb (shown i s) && shown i (step e s)) eqn:E.
  - apply andb_true_iff in E as [_ E]. rewrite reveals_of_shown by done. lia.
  - apply IH.
Qed.

Lemma hides_never (i : nat) (es : list event) (s : state) :
  hides i (trace es s) = 0%nat.
Proof.
  revert s. induction es as [|e es IH]; intros s; [done|].
  rewrite hides_cons, IH.
  destruct (shown i s) eqn:E; [|done].
  by rewrite step_shown.
Qed.

(** C4: along any sequence of observer deliveries and timer firings, an
    element goes from hidden to shown at most once and never back: once
    it has the [show] class it keeps it.  The callback that sees it
    intersecting unobserves it, and an element that is not observed is
    never observed again. *)
Theorem reveal_one_shot (i : nat) (s : state) (es : list event) :
  (reveals i (trace es s) ≤ 1)%nat ∧
  hides i (trace es s) = 0%nat ∧
  (shown i s = true → shown i (run es s) = true) ∧
  (i ∉ observed s → i ∉ observed (run es s)) ∧
  (∀ (entries : list entry) (e : entry),
     e ∈ entries → target e = i → isIntersecting e = true →
     i ∉ observed (run es (callback entries s))).
Proof.
  split; [apply reveals_at_most_once|].
  split; [apply hides_never|].
  split; [apply run_shown|].
  split.
  - intros H Hin. by apply run_observed in Hin.
  - intros entries e Hin <- Hi Hobs. apply run_observed in Hobs.
    by apply (callbackFrom_unobserves entries 0 s e).
Qed.

Lemma reveal_one_shot_sample :
  shown 1 (run (drop 2 Samples.revealEvents)
             (run (take 2 Samples.revealEvents) Samples.reveal0)) = true.
Proof.
  apply (proj1 (proj2 (proj2 (reveal_one_shot 1
           (run (take 2 Samples.revealEvents) Samples.reveal0)
           (drop 2 Samples.revealEvents))))).
  reflexivity.
Defined.

End RevealFacts.

(** ** Whitespace and the regular expression matcher *)
Section TextFacts.

Import Text.

Lemma trimStart_blank (s : ustring) :
  Forall (λ c, isWhiteSpace c = true) (trimStart s) ↔
  Forall (λ c, isWhiteSpace c = true) s.
Proof.
  induction s as [|c s IH]; [done|].
  cbn. destruct (isWhiteSpace c) eqn:E; [|done].
  rewrite IH. split; [by constructor|]. by inversion 1.
Qed.

Lemma trimStart_nil (s : ustring) :
  trimStart s = [] ↔ Forall (λ c, isWhiteSpace c = true) s.
Proof.
  induction s as [|c s IH]; [done|].
  cbn. destruct (isWhiteSpace c) eqn:E.
  - rewrite IH. split; [by constructor|]. by inversion 1.
  - split; [done|]. inversion 1. congruence.
Qed.

Lemma trim_nil (s : ustring) :
  trim s = [] ↔ Forall (λ c, isWhiteSpace c = true) s.
Proof.
  unfold trim, trimEnd.
  rewrite <- (trimStart_blank s).
  rewrite <- (Forall_reverse _ (trimStart s)).
  rewrite <- trimStart_nil.
  split; intros H.
  - apply (f_equal reverse) in H. by rewrite reverse_involutive in H.
  - by rewrite H.
Qed.

Lemma lang_seq_inv (r1 r2 : regex) (s : ustring) :
  lang (Seq r1 r2) s ↔ ∃ s1 s2, s = s1 ++ s2 ∧ lang r1 s1 ∧ lang r2 s2.
Proof.
  split.
  - inversion 1; subst; eauto.
  - intros (s1 & s2 & -> & H1 & H2). by constructor.
Qed.

Lemma lang_alt_inv (r1 r2 : regex) (s : ustring) :
  lang (Alt r1 r2) s ↔ lang r1 s ∨ lang r2 s.
Proof.
  split.
  - inversion 1; subst; eauto.
  - intros [H|H]; [by apply lang_alt_l | by apply lang_alt_r].
Qed.

Lemma lang_class_inv (p : N → bool) (s : ustring) :
  lang (Class p) s ↔ ∃ c, s = [c] ∧ p c = true.
Proof.
  split.
  - inversion 1; subst; eauto.
  - intros (c & -> & H). by constructor.
Qed.

Lemma nullable_lang (r : regex) : nullable r = true ↔ lang r [].
Proof.
  induction r as [| |p|r1 IH1 r2 IH2|r1 IH1 r2 IH2|r IH]; cbn.
  - split; [done|]. inversion 1.
  - split; [constructor|done].
  - split; [done|]. inversion 1.
  - rewrite andb_true_iff, IH1, IH2, lang_seq_inv. split.
    + intros [H1 H2]. by exists [], [].
    + intros (s1 & s2 & E & H1 & H2). symmetry in E.
      apply app_eq_nil in E as [-> ->]. done.
  - rewrite orb_true_iff, IH1, IH2, lang_alt_inv. done.
  - split; [constructor|done].
Qed.

Lemma deriv_sound (c : N) (r : regex) (s : ustring) :
  lang (deriv c r) s → lang r (c :: s).
Proof.
  revert s. induction r as [| |p|r1 IH1 r2 IH2|r1 IH1 r2 IH2|r IH]; intros s; cbn.
  - inversion 1.
  - inversion 1.
  - destruct (p c) eqn:E; inversion 1; subst. by constructor.
  - destruct (nullable r1) eqn:E.
    + rewrite lang_alt_inv, lang_seq_inv.
      intros [(s1 & s2 & -> & H1 & H2)|H2].
      * apply (lang_seq r1 r2 (c :: s1) s2); [by apply IH1|done].
      * apply (lang_seq r1 r2 [] (c :: s)); [by apply nullable_lang|by apply IH2].
    + rewrite lang_seq_inv. intros (s1 & s2 & -> & H1 & H2).
      apply (lang_seq r1 r2 (c :: s1) s2); [by apply IH1|done].
  - rewrite lang_alt_inv. intros [H|H].
    + apply lang_alt_l. by apply IH1.
    + apply lang_alt_r. by apply IH2.
  - rewrite lang_seq_inv. intros (s1 & s2 & -> & H1 & H2).
    apply (lang_star_app r (c :: s1) s2); [by apply IH|done].
Qed.

Lemma deriv_complete (c : N) (r : regex) (w : ustring) :
  lang r w → ∀ s, w = c :: s → lang (deriv c r) s.
Proof.
  induction 1 as [|p c' Hp|r1 r2 s1 s2 H1 IH1 H2 IH2|r1 r2 w H IH|r1 r2 w H IH
                  |r|r s1 s2 H1 IH1 H2 IH2]; intros s E; cbn.
  - discriminate.
  - injection E as -> <-. rewrite Hp. constructor.
  - destruct s1 as [|c1 s1].
    + cbn in E. subst s2.
      apply nullable_lang in H1. rewrite H1. apply lang_alt_r. by apply IH2.
    + cbn in E. injection E as -> <-.
      assert (Hs : lang (Seq (deriv c r1) r2) (s1 ++ s2))
        by (constructor; [by apply IH1|done]).
      destruct (nullable r1); [by apply lang_alt_l|done].
  - apply lang_alt_l. by apply IH.
  - apply lang_alt_r. by apply IH.
  - discriminate.
  - destruct s1 as [|c1 s1].
    + cbn in E. by apply IH2.
    + cbn in E. injection E as -> <-.
      constructor; [by apply IH1|done].
Qed.

Lemma deriv_lang (c : N) (r : regex) (s : ustring) :
  lang (deriv c r) s ↔ lang r (c :: s).
Proof.
  split; [apply deriv_sound|]. intros H. by eapply deriv_complete.
Qed.

(** The matcher decides membership in the language. *)
Lemma matches_lang (r : regex) (s : ustring) : matches r s = true ↔ lang r s.
Proof.
  revert r. induction s as [|c s IH]; intros r; cbn.
  - apply nullable_lang.
  - rewrite IH. apply deriv_lang.
Qed.

Lemma lang_star_class (p : N → bool) (s : ustring) :
  lang (Star (Class p)) s ↔ Forall (λ c, p c = true) s.
Proof.
  split.
  - intros H. remember (Star (Class p)) as r eqn:Er.
    induction H as [| | | | | |r s1 s2 H1 _ H2 IH2]; try discriminate; [done|].
    injection Er as ->. apply lang_class_inv in H1 as (c & -> & Hc).
    constructor; [done|]. by apply IH2.
  - induction 1 as [|c s Hc _ IH]; [constructor|].
    apply (lang_star_app _ [c] s); [by constructor|done].
Qed.

Lemma lang_plus_class (p : N → bool) (s : ustring) :
  lang (Plus (Class p)) s ↔ s ≠ [] ∧ Forall (λ c, p c = true) s.
Proof.
  unfold Plus. rewrite lang_seq_inv. split.
  - intros (s1 & s2 & -> & H1 & H2).
    apply lang_class_inv in H1 as (c & -> & Hc).
    apply lang_star_class in H2. split; [done|]. by constructor.
  - intros [Hne H]. destruct H as [|c s Hc H]; [done|].
    exists [c], s. split; [done|]. split; [by constructor|].
    by apply lang_star_class.
Qed.

Lemma lang_chr (a : ascii) (s : ustring) :
  lang (Chr a) s ↔ s = [N_of_ascii a].
Proof.
  unfold Chr. rewrite lang_class_inv. split.
  - intros (c & -> & H). apply N.eqb_eq in H. by subst.
  - intros ->. eexists. split; [done|]. apply N.eqb_refl.
Qed.

End TextFacts.

(** ** Contact form *)
Section ContactFormFacts.

Import Text ContactForm.

(** The expression accepts exactly the strings of the shape
    local@domain.tld. *)
Lemma isValidEmail_shape (e : ustring) : isValidEmail e = true ↔ emailShape e.
Proof.
  unfold isValidEmail, emailRegex, emailShape.
  rewrite matches_lang. split.
  - intros H.
    apply lang_seq_inv in H as (l & s1 & -> & Hl & H).
    apply lang_seq_inv in H as (a & s2 & -> & Ha & H).
    apply lang_seq_inv in H as (d & s3 & -> & Hd & H).
    apply lang_seq_inv in H as (p & t & -> & Hp & Ht).
    apply lang_chr in Ha as ->. apply lang_chr in Hp as ->.
    apply lang_plus_class in Hl as [? ?].
    apply lang_plus_class in Hd as [? ?].
    apply lang_plus_class in Ht as [? ?].
    by exists l, d, t.
  - intros (l & d & t & -> & Hl & Hd & Ht & Fl & Fd & Ft).
    constructor; [by apply lang_plus_class|].
    constructor; [by apply lang_chr|].
    constructor; [by apply lang_plus_class|].
    constructor; [by apply lang_chr|].
    by apply lang_plus_class.
Qed.

Lemma truthy_trim_blank (s : ustring) : negb (truthy (trim s)) = true ↔ blank s.
Proof.
  unfold blank. rewrite <- trim_nil. destruct (trim s); cbn; split; done.
Qed.

Lemma if_negb_truthy_trim {A} (s : ustring) (x y : A) :
  (blank s → (if negb (truthy (trim s)) then x else y) = x) ∧
  (¬ blank s → (if negb (truthy (trim s)) then x else y) = y).
Proof.
  pose proof (truthy_trim_blank s) as H.
  destruct (negb (truthy (trim s))); split; intros Hb; try done.
  - exfalso. by apply Hb, H.
  - apply H in Hb. discriminate.
Qed.

Lemma showStatus_shown (msg : ustring) (type : string) (s : page) (st : status_el) :
  formStatus s = Some st →
  formStatus (showStatus msg type s) =
    Some {| textContent := msg; className := "form-status " +:+ type |}.
Proof. intros H. unfold showStatus. by rewrite H. Qed.

(** C2 (as the code has it): the rules are checked in the order name,
    email, message, and the first one that fails decides the message
    shown.  The name and the message pass when they are not blank, that
    is, not empty after [trim]; the email passes exactly when it has the
    shape local@domain.tld.  When all three pass the result is true and
    nothing is shown. *)
Theorem validateForm_first_failure_wins (d : formData) (s : page) :
  (blank (name d) →
     validateForm d s = (false, showStatus nameError "error" s)) ∧
  (¬ blank (name d) → ¬ emailShape (email d) →
     validateForm d s = (false, showStatus emailError "error" s)) ∧
  (¬ blank (name d) → emailShape (email d) → blank (message d) →
     validateForm d s = (false, showStatus messageError "error" s)) ∧
  (¬ blank (name d) → emailShape (email d) → ¬ blank (message d) →
     validateForm d s = (true, s)) ∧
  (∀ e : ustring, isValidEmail e = true ↔ emailShape e) ∧
  (∀ (msg : ustring) (st : status_el), formStatus s = Some st →
     formStatus (showStatus msg "error" s) =
       Some {| textContent := msg; className := "form-status error" |}).
Proof.
  unfold validateForm.
  pose proof (isValidEmail_shape (email d)) as He.
  split; [|split; [|split; [|split; [|split]]]].
  - intros Hn. by apply if_negb_truthy_trim.
  - intros Hn Hne.
    rewrite (proj2 (if_negb_truthy_trim _ _ _) Hn).
    destruct (isValidEmail (email d)); [|done].
    exfalso. by apply Hne, He.
  - intros Hn Hs Hm.
    rewrite (proj2 (if_negb_truthy_trim _ _ _) Hn).
    rewrite (proj2 He Hs). cbn [negb].
    by apply if_negb_truthy_trim.
  - intros Hn Hs Hm.
    rewrite (proj2 (if_negb_truthy_trim _ _ _) Hn).
    rewrite (proj2 He Hs). cbn [negb].
    by apply if_negb_truthy_trim.
  - apply isValidEmail_shape.
  - intros msg st Hst. by apply (showStatus_shown msg "error" s st).
Qed.

Lemma blank_space : blank (lit " ").
Proof. repeat constructor. Qed.

Lemma validateForm_first_failure_wins_sample :
  validateForm Samples.spaceName (Samples.pageWith Samples.spaceName) =
    (false, showStatus nameError "error" (Samples.pageWith Samples.spaceName)).
Proof.
  apply (proj1 (validateForm_first_failure_wins Samples.spaceName
                  (Samples.pageWith Samples.spaceName))).
  exact blank_space.
Defined.

(** The two failing records of the specification. *)
Example validateForm_empty_name :
  validateForm Samples.emptyName (Samples.pageWith Samples.emptyName) =
    (false, showStatus nameError "error" (Samples.pageWith Samples.emptyName)).
Proof. reflexivity. Qed.

Example validateForm_bad_email :
  validateForm Samples.badEmail (Samples.pageWith Samples.badEmail) =
    (false, showStatus emailError "error" (Samples.pageWith Samples.badEmail)).
Proof. reflexivity. Qed.

Example validateForm_good_record :
  validateForm Samples.goodRecord (Samples.pageWith Samples.goodRecord) =
    (true, Samples.pageWith Samples.goodRecord).
Proof. reflexivity. Qed.

(** C2 as stated fails: a name of one space is not empty, the email and
    the message are fine, and the form is still rejected with the name's
    message. *)
Lemma validateForm_rejects_whitespace_name :
  name Samples.spaceName ≠ [] ∧
  isValidEmail (email Samples.spaceName) = true ∧
  message Samples.spaceName ≠ [] ∧
  validateForm Samples.spaceName (Samples.pageWith Samples.spaceName) =
    (false, showStatus nameError "error" (Samples.pageWith Samples.spaceName)) ∧
  ¬ (∀ (d : formData) (s : page),
       name d ≠ [] → isValidEmail (email d) = true → message d ≠ [] →
       (validateForm d s).1 = true).
Proof.
  split; [discriminate|]. split; [reflexivity|]. split; [discriminate|].
  split; [reflexivity|].
  intros H.
  specialize (H Samples.spaceName (Samples.pageWith Samples.spaceName)).
  discriminate H; [discriminate | reflexivity | discriminate].
Qed.

Lemma handleSubmit_valid (s : page) :
  (validateForm (fields s) s).1 = true →
  handleSubmit s = simulateSubmission (fields s) s.
Proof.
  unfold handleSubmit, validateForm. intros H.
  repeat (match type of H with context [if ?c then _ else _] =>
            destruct c; [discriminate H|] end).
  reflexivity.
Qed.

Lemma successMessage_has_name (d : formData) : occursIn (name d) (successMessage d).
Proof.
  exists (lit "Thanks, "), (lit "! I'll get back to you at " ++ email d ++ lit " soon.").
  reflexivity.
Qed.

Lemma successMessage_has_email (d : formData) : occursIn (email d) (successMessage d).
Proof.
  exists (lit "Thanks, " ++ name d ++ lit "! I'll get back to you at "), (lit " soon.").
  unfold successMessage. by rewrite <- !app_assoc.
Qed.

Lemma fire_finish (d : formData) (orig : ustring) (s : page) (st : status_el) :
  formStatus s = Some st →
  let s' := fire (FinishSubmission d orig) s in
  formStatus s' = Some (successStatus d) ∧
  fields s' = defaults s ∧ submitText s' = orig ∧ submitDisabled s' = false ∧
  now s' = now s.
Proof.
  intros H. cbn. unfold showStatus. rewrite H. done.
Qed.

Lemma tick_after_submit (d : formData) (s : page) :
  timers s = [] →
  tick (simulateSubmission d s) =
    Some (fire (FinishSubmission d (submitText s))
            {| fields := fields s; defaults := defaults s;
               submitText := sendingText; submitDisabled := true;
               formStatus := formStatus s;
               now := Nat.max (now s) (now s + 1500); timers := [] |}).
Proof.
  destruct s as [f df tx dis fs n ts]. cbn. intros ->. reflexivity.
Qed.

(** C3: submitting a record that passes validation disables the submit
    control and labels it with the loading text at once, and schedules one
    callback 1500 ms later.  Whenever that callback runs it shows a success
    status whose text is the template around the submitted name and
    email, resets the form, restores the label the control had and enables
    it again; with nothing else pending it is the next callback to run. *)
Theorem submission_sequence (s : page) (st : status_el) :
  (validateForm (fields s) s).1 = true →
  formStatus s = Some st →
  let d := fields s in
  let s1 := handleSubmit s in
  s1 = simulateSubmission d s ∧
  submitDisabled s1 = true ∧
  submitText s1 = sendingText ∧
  formStatus s1 = formStatus s ∧
  timers s1 = timers s ++ [((now s + 1500)%nat, FinishSubmission d (submitText s))] ∧
  occursIn (name d) (successMessage d) ∧
  occursIn (email d) (successMessage d) ∧
  (∀ (s2 : page) (st2 : status_el), formStatus s2 = Some st2 →
     let s3 := fire (FinishSubmission d (submitText s)) s2 in
     formStatus s3 = Some (successStatus d) ∧
     fields s3 = defaults s2 ∧
     submitText s3 = submitText s ∧
     submitDisabled s3 = false) ∧
  (timers s = [] →
     ∃ s3, tick s1 = Some s3 ∧
       now s3 = (now s + 1500)%nat ∧
       formStatus s3 = Some (successStatus d) ∧
       fields s3 = defaults s ∧
       submitText s3 = submitText s ∧
       submitDisabled s3 = false).
Proof.
  intros Hv Hst d s1.
  assert (E : s1 = simulateSubmission d s) by (by apply handleSubmit_valid).
  split; [exact E|]. rewrite E.
  split; [done|]. split; [done|]. split; [done|]. split; [done|].
  split; [apply successMessage_has_name|].
  split; [apply successMessage_has_email|].
  split.
  - intros s2 st2 H2.
    destruct (fire_finish d (submitText s) s2 st2 H2) as (? & ? & ? & ? & _).
    done.
  - intros Ht. rewrite tick_after_submit by done.
    eexists. split; [reflexivity|].
    match goal with |- context [fire _ ?p] =>
      destruct (fire_finish d (submitText s) p st Hst) as (H1 & H2 & H3 & H4 & H5)
    end.
    rewrite H1, H2, H3, H4, H5. cbn [now defaults].
    repeat split; try done. lia.
Qed.

Lemma submission_sequence_sample :
  let s := Samples.pageWith Samples.goodRecord in
  submitDisabled (handleSubmit s) = true ∧
  ∃ s3, tick (handleSubmit s) = Some s3 ∧
    formStatus s3 = Some (successStatus Samples.goodRecord) ∧
    submitText s3 = lit "Send Message" ∧ submitDisabled s3 = false.
Proof.
  destruct (submission_sequence (Samples.pageWith Samples.goodRecord)
              {| textContent := []; className := "form-status" |})
    as (_ & Hd & _ & _ & _ & _ & _ & _ & Ht).
  - reflexivity.
  - reflexivity.
  - split; [exact Hd|].
    destruct Ht as (s3 & Hs3 & _ & Hf & _ & Htx & Hdis); [reflexivity|].
    exists s3. repeat split; assumption.
Defined.

End ContactFormFacts.

(** ** More on the easing curve and the scroll progress *)
Section UtilsMore.

Import Utils.

Lemma square_nonneg (x : Q) : 0 <= x * x.
Proof.
  destruct (Qlt_le_dec x 0) as [H|H].
  - assert (E : x * x == (- x) * (- x)) by ring.
    rewrite E. apply Qmult_le_0_compat; lra.
  - by apply Qmult_le_0_compat.
Qed.

Lemma cube_mono (a b : Q) : a <= b → a * a * a <= b * b * b.
Proof.
  intros H.
  assert (E : b * b * b - a * a * a ==
              (b - a) * (((a + b) * (a + b) + a * a + b * b) * (1 # 2))) by ring.
  assert (Hs : 0 <= ((a + b) * (a + b) + a * a + b * b) * (1 # 2)).
  { pose proof (square_nonneg (a + b)). pose proof (square_nonneg a).
    pose proof (square_nonneg b). lra. }
  assert (Hp : 0 <= (b - a) * (((a + b) * (a + b) + a * a + b * b) * (1 # 2)))
    by (apply Qmult_le_0_compat; [lra|done]).
  lra.
Qed.

Lemma cube_pos (a : Q) : 0 < a → 0 < a * a * a.
Proof.
  intros H. assert (0 < a * a) by (apply Qmult_lt_0_compat; done).
  by apply Qmult_lt_0_compat.
Qed.

Lemma easeInOutCubic_low (t : Q) :
  t < 1 # 2 → easeInOutCubic (Finite t) = Finite (4 * t * t * t).
Proof.
  intros H. unfold easeInOutCubic.
  by rewrite (proj2 (ltb_finite t (1 # 2)) H).
Qed.

Lemma easeInOutCubic_high (t : Q) :
  1 # 2 <= t →
  easeInOutCubic (Finite t) =
    Finite ((t + - 1) * (2 * t + - 2) * (2 * t + - 2) + 1).
Proof.
  intros H. unfold easeInOutCubic.
  destruct (Finite t <? Finite (1 # 2))%js eqn:E; [|done].
  apply ltb_finite in E. exfalso. apply (Qlt_not_le _ _ E H).
Qed.

Lemma easeOut_cube (t : Q) :
  (t + - 1) * (2 * t + - 2) * (2 * t + - 2) + 1 ==
  1 - 4 * ((1 - t) * (1 - t) * (1 - t)).
Proof. ring. Qed.

(** On a finite argument the curve has a finite value. *)
Lemma easeInOutCubic_finite (t : Q) : ∃ v, easeInOutCubic (Finite t) = Finite v.
Proof.
  destruct (Qlt_le_dec t (1 # 2)) as [H|H].
  - eexists. by apply easeInOutCubic_low.
  - eexists. by apply easeInOutCubic_high.
Qed.


(** X2: the curve never goes backwards: t1 <= t2 gives a value at t1 that
    is at most the value at t2, for all rationals. *)
Theorem easeInOutCubic_monotone (t1 t2 : Q) :
  t1 <= t2 →
  ∃ a b : Q,
    easeInOutCubic (Finite t1) = Finite a ∧
    easeInOutCubic (Finite t2) = Finite b ∧
    a <= b.
Proof.
  intros H.
  destruct (Qlt_le_dec t1 (1 # 2)) as [H1|H1];
    destruct (Qlt_le_dec t2 (1 # 2)) as [H2|H2].
  - do 2 eexists. split; [by apply easeInOutCubic_low|].
    split; [by apply easeInOutCubic_low|].
    pose proof (cube_mono t1 t2 H). lra.
  - do 2 eexists. split; [by apply easeInOutCubic_low|].
    split; [by apply easeInOutCubic_high|].
    rewrite easeOut_cube.
    assert (A : t1 <= 1 # 2) by lra.
    pose proof (cube_mono t1 (1 # 2) A) as C1.
    assert (B : 1 - t2 <= 1 # 2) by lra.
    pose proof (cube_mono (1 - t2) (1 # 2) B) as C2.
    assert (K : (1 # 2) * (1 # 2) * (1 # 2) == 1 # 8) by reflexivity.
    rewrite K in C1, C2. lra.
  - exfalso. lra.
  - do 2 eexists. split; [by apply easeInOutCubic_high|].
    split; [by apply easeInOutCubic_high|].
    rewrite !easeOut_cube.
    assert (A : 1 - t2 <= 1 - t1) by lra.
    pose proof (cube_mono _ _ A). lra.
Qed.

Lemma easeInOutCubic_monotone_sample :
  ∃ a b : Q,
    easeInOutCubic (Finite (1 # 4)) = Finite a ∧
    easeInOutCubic (Finite (3 # 4)) = Finite b ∧
    a <= b.
Proof. apply (easeInOutCubic_monotone (1 # 4) (3 # 4)). discriminate. Defined.



Lemma min_with_one (q : Q) :
  ∃ p, Number.min (Finite q) (Finite 1) = Finite p ∧ p == Qmin q 1.
Proof.
  unfold Number.min, ltb. destruct (Qlt_le_dec 1 q) as [H|H].
  - exists 1. split; [done|]. rewrite Q.min_r; [reflexivity|lra].
  - exists q. split; [done|]. by rewrite Q.min_l.
Qed.

(** X4: on a scrollable page the progress is min(s / maxScroll, 1) for
    every offset s, inside [0, maxScroll] or not: it is 1 from maxScroll
    on, and negative for a negative offset, since only the upper bound is
    clamped. *)
Theorem getScrollProgress_upper_clamp_only (v : viewport) (s m : Q) :
  scrollTop v = Finite s →
  trackLength v = Finite m →
  0 < m →
  ∃ p : Q,
    getScrollProgress v = Finite p ∧
    p == Qmin (s / m) 1 ∧
    p <= 1 ∧
    (m <= s → p == 1) ∧
    (s < 0 → p < 0).
Proof.
  intros Hs Ht Hm.
  assert (Hne : ¬ m == 0) by lra.
  unfold getScrollProgress. rewrite Hs, Ht, div_finite by done.
  destruct (min_with_one (s / m)) as (p & -> & Hp).
  exists p. split; [done|]. split; [done|]. rewrite Hp. split; [|split].
  - apply Q.le_min_r.
  - intros H. apply Q.min_r. apply Qle_shift_div_l; [done|]. lra.
  - intros H. apply Qle_lt_trans with (s / m); [apply Q.le_min_l|].
    apply Qlt_shift_div_r; [done|]. lra.
Qed.

Lemma getScrollProgress_upper_clamp_only_sample :
  ∃ p : Q,
    getScrollProgress Samples.viewportAbove = Finite p ∧
    p == Qmin (-30 / 1000) 1 ∧
    p <= 1 ∧
    (1000 <= -30 → p == 1) ∧
    (-30 < 0 → p < 0).
Proof.
  apply (getScrollProgress_upper_clamp_only Samples.viewportAbove (-30) 1000);
    reflexivity.
Defined.

(** X5: when the document is exactly as tall as the window the track has
    length 0: at offset 0 the quotient is 0/0, the progress is NaN and the
    width written is NaN percent; at a positive offset it is 1. *)
Theorem getScrollProgress_zero_track (v : viewport) (s m : Q) :
  scrollTop v = Finite s →
  trackLength v = Finite m →
  m == 0 →
  (s == 0 →
     getScrollProgress v = NaN ∧
     ProgressBar.update v = ProgressBar.Percent NaN) ∧
  (0 < s → getScrollProgress v = Finite 1).
Proof.
  intros Hs Ht Hm.
  assert (Zm : Qis_zero m = true) by (by apply Qeq_bool_iff).
  unfold ProgressBar.update, getScrollProgress. rewrite Hs, Ht.
  unfold div. rewrite Zm. split.
  - intros H0. assert (Zs : Qis_zero s = true) by (by apply Qeq_bool_iff).
    by rewrite Zs.
  - intros Hp. assert (Zs : Qis_zero s = false).
    { apply not_true_is_false. intros E. apply Qeq_bool_iff in E. lra. }
    rewrite Zs. unfold Qsign_neg.
    destruct (Qlt_le_dec s 0) as [Hn|_]; [exfalso; lra|]. reflexivity.
Qed.

Lemma getScrollProgress_zero_track_sample :
  getScrollProgress Samples.viewportShort = NaN ∧
  ProgressBar.update Samples.viewportShort = ProgressBar.Percent NaN.
Proof.
  apply (proj1 (getScrollProgress_zero_track Samples.viewportShort 0 0
                  eq_refl eq_refl eq_refl)).
  reflexivity.
Defined.

End UtilsMore.

(** ** Throttle *)
Section ThrottleFacts.

Import Throttle.

Context {A : Type}.
Variable limit : nat.

Implicit Types (s : state A) (a : A) (es : list (event A)).

Lemma throttle_run_snoc es (e : event A) s :
  run limit (es ++ [e]) s = step limit e (run limit es s).
Proof. unfold run. by rewrite foldl_app. Qed.

Lemma throttle_run_cons es (e : event A) s :
  run limit (e :: es) s = run limit es (step limit e s).
Proof. reflexivity. Qed.

Lemma throttle_step_inv (e : event A) s :
  spaced limit s ∧ armed limit s →
  spaced limit (step limit e s) ∧ armed limit (step limit e s).
Proof.
  intros [Hsp Har]. destruct e as [a|k|dt]; cbn [step].
  - unfold call. destruct (inThrottle s) eqn:Ein; cbn [negb]; [done|].
    unfold spaced, armed in *. rewrite Ein in Har. cbn. rewrite last_snoc. cbn.
    destruct (last (invoked s)) as [p|] eqn:El.
    + destruct Har as [Ht Hle]. rewrite Ht. split; [|done].
      intros i p1 p2 H1 H2.
      destruct (decide (S i < length (invoked s))%nat) as [Hlt|Hge].
      * rewrite lookup_app_l in H1 by lia. rewrite lookup_app_l in H2 by done.
        by apply (Hsp i).
      * apply lookup_lt_Some in H2 as Hb. rewrite length_app in Hb. cbn in Hb.
        assert (Hi : S i = length (invoked s)) by lia.
        rewrite lookup_app_l in H1 by lia.
        rewrite lookup_app_r in H2 by lia.
        replace (S i - length (invoked s))%nat with 0%nat in H2 by lia.
        cbn in H2. injection H2 as <-. cbn.
        rewrite last_lookup in El.
        replace (pred (length (invoked s))) with i in El by lia.
        rewrite H1 in El. injection El as ->. done.
    + destruct Har as [_ Ht]. rewrite Ht. split; [|done].
      apply last_None in El. rewrite El. cbn.
      intros [|i] p1 p2 H1 H2; cbn in *; done.
  - unfold expire. destruct (timers s !! k) as [due|] eqn:Ek; [|done].
    destruct (due <=? now s)%nat eqn:Ed; [|done].
    apply Nat.leb_le in Ed.
    unfold spaced, armed in *. cbn. split; [done|].
    destruct (last (invoked s)) as [p|].
    + destruct (inThrottle s).
      * rewrite Har in Ek. destruct k as [|k]; cbn in Ek; [|done].
        injection Ek as <-. rewrite Har. cbn. done.
      * destruct Har as [Ht _]. by rewrite Ht in Ek.
    + destruct Har as [_ Ht]. by rewrite Ht in Ek.
  - unfold spaced, armed, elapse in *. cbn. split; [done|].
    destruct (last (invoked s)) as [p|]; [|done].
    destruct (inThrottle s); [done|]. destruct Har. split; [done|lia].
Qed.

Lemma throttle_idle_inv : spaced limit (@idle A) ∧ armed limit (@idle A).
Proof. split; [|done]. intros i p1 p2 H. done. Qed.

Lemma throttle_run_inv es s :
  spaced limit s ∧ armed limit s →
  spaced limit (run limit es s) ∧ armed limit (run limit es s).
Proof.
  revert s. induction es as [|e es IH]; intros s H; [done|].
  rewrite throttle_run_cons. by apply IH, throttle_step_inv.
Qed.

Lemma armed_timers s :
  armed limit s →
  (inThrottle s = false → timers s = []) ∧
  (inThrottle s = true → length (timers s) = 1%nat).
Proof.
  unfold armed. destruct (last (invoked s)) as [p|]; destruct (inThrottle s);
    intros H; split; intros E; try done;
    try (by rewrite H); by destruct H.
Qed.

(** X6: however calls, time and timer callbacks interleave, two successive
    invocations of the throttled function are at least [limit] ms apart,
    and there is a pending reset timer exactly while [inThrottle] is set
    (one, never more). *)
Theorem throttle_spacing es :
  let s := run limit es idle in
  (∀ i p1 p2, invoked s !! i = Some p1 → invoked s !! S i = Some p2 →
     (p1.1 + limit ≤ p2.1)%nat) ∧
  (inThrottle s = false → timers s = []) ∧
  (inThrottle s = true → length (timers s) = 1%nat).
Proof.
  intros s.
  destruct (throttle_run_inv es idle throttle_idle_inv) as [Hsp Har].
  split; [exact Hsp|]. by apply armed_timers.
Qed.

Lemma call_in_window a s : inThrottle s = true → call limit a s = s.
Proof. intros H. unfold call. by rewrite H. Qed.

Lemma calls_in_window (l : list A) s :
  inThrottle s = true → run limit (map Call l) s = s.
Proof.
  intros H. induction l as [|a l IH]; [done|].
  cbn [map]. rewrite throttle_run_cons. cbn [step].
  by rewrite call_in_window.
Qed.

(** X7: throttling is leading-edge only.  When the wrapper is not
    throttling, a burst of calls invokes the function once, at once, with
    the arguments of the first call; the later calls of the burst are
    dropped, and they stay dropped when the window ends: after [limit] ms
    the timer only clears the flag. *)
Theorem throttle_no_trailing_call es a (rest : list A) (dt : nat) :
  let s := run limit es idle in
  inThrottle s = false →
  (limit ≤ dt)%nat →
  let s1 := run limit (Call a :: map Call rest) s in
  let s2 := run limit [Elapse dt; Expire 0] s1 in
  invoked s1 = invoked s ++ [(now s, a)] ∧
  inThrottle s1 = true ∧
  invoked s2 = invoked s1 ∧
  inThrottle s2 = false ∧
  timers s2 = [].
Proof.
  intros s Hin Hdt s1 s2.
  destruct (throttle_run_inv es idle throttle_idle_inv) as [_ Har].
  fold s in Har. destruct (armed_timers s Har) as [Ht _].
  specialize (Ht Hin).
  assert (E1 : s1 = call limit a s).
  { unfold s1. rewrite throttle_run_cons. cbn [step].
    apply calls_in_window. unfold call. by rewrite Hin. }
  assert (C : call limit a s =
              {| inThrottle := true; now := now s;
                 timers := [(now s + limit)%nat];
                 invoked := invoked s ++ [(now s, a)] |}).
  { unfold call. by rewrite Hin, Ht. }
  unfold s2. rewrite E1, C. cbn.
  split; [done|]. split; [done|].
  unfold expire. cbn.
  destruct (now s + limit <=? now s + dt)%nat eqn:El; [done|].
  apply Nat.leb_gt in El. lia.
Qed.

End ThrottleFacts.

Lemma throttle_spacing_sample : (0 + 10 ≤ 10)%nat.
Proof.
  apply (proj1 (throttle_spacing 10 Samples.throttleEvents)
           0%nat (0%nat, 1%nat) (10%nat, 3%nat)); reflexivity.
Defined.

Lemma throttle_no_trailing_call_sample :
  let s := Throttle.run 10 Samples.throttleWindowOver Throttle.idle in
  let s1 := Throttle.run 10 (Throttle.Call 4%nat :: map Throttle.Call [5; 6]%nat) s in
  let s2 := Throttle.run 10 [Throttle.Elapse 12; Throttle.Expire 0] s1 in
  Throttle.invoked s1 = Throttle.invoked s ++ [(Throttle.now s, 4%nat)] ∧
  Throttle.inThrottle s1 = true ∧
  Throttle.invoked s2 = Throttle.invoked s1 ∧
  Throttle.inThrottle s2 = false ∧
  Throttle.timers s2 = [].
Proof.
  apply (throttle_no_trailing_call 10 Samples.throttleWindowOver 4%nat
           [5; 6]%nat 12).
  - reflexivity.
  - lia.
Defined.

(** ** Debounce *)
Section DebounceFacts.

Import Debounce.

Context {A : Type}.
Variable wait : nat.

Implicit Types (s : state A) (a : A) (es : list (event A)).

Lemma debounce_run_cons es (e : event A) s :
  run wait (e :: es) s = run wait es (step wait e s).
Proof. reflexivity. Qed.

Lemma clearTimeout_nil (id : option nat) :
  clearTimeout id (@nil (nat * (nat * A))) = [].
Proof. by destruct id. Qed.

Lemma clearTimeout_own (id due : nat) a :
  clearTimeout (Some id) [(id, (due, a))] = [].
Proof.
  unfold clearTimeout. rewrite filter_cons_False; [done|].
  cbn. intros H. by apply H.
Qed.

Lemma single_clear s : single s → clearTimeout (timeout s) (pending s) = [].
Proof.
  intros [->|(id & due & a & -> & ->)];
    [apply clearTimeout_nil | apply clearTimeout_own].
Qed.

Lemma debounce_step_single (e : event A) s : single s → single (step wait e s).
Proof.
  intros H. destruct e as [a|k|dt]; cbn [step].
  - right. exists (nextId s), (now s + wait)%nat, a. unfold call. cbn.
    by rewrite single_clear.
  - unfold fire. destruct H as [E|(id & due & a & E & Et)].
    + rewrite E. cbn. by left.
    + rewrite E. destruct k as [|k]; cbn; [|right; by exists id, due, a].
      destruct (due <=? now s)%nat; [|right; by exists id, due, a].
      left. cbn. apply clearTimeout_nil.
  - exact H.
Qed.

Lemma debounce_run_single es s : single s → single (run wait es s).
Proof.
  revert s. induction es as [|e es IH]; intros s H; [done|].
  rewrite debounce_run_cons. by apply IH, debounce_step_single.
Qed.

Lemma debounce_run_elapse (ds : list nat) s :
  run wait (map Elapse ds) s = elapse (sum_list ds) s.
Proof.
  revert s. induction ds as [|d ds IH]; intros s.
  - destruct s. unfold elapse. cbn. f_equal. lia.
  - cbn [map]. rewrite debounce_run_cons, IH. unfold elapse. cbn.
    f_equal. lia.
Qed.

(** X8: in a debounced function the last call wins.  A call cancels
    whatever timer was pending, so at most one is pending at any time, and
    nothing is invoked by the call itself.  If no further call comes, the
    function runs once the timer is allowed to fire, [wait] ms or more
    after that call, with that call's arguments; before that the timer
    does not run. *)
Theorem debounce_last_call_wins es a (ds : list nat) :
  let s := run wait es idle in
  let s1 := run wait (Call a :: map Elapse ds) s in
  (length (pending s) ≤ 1)%nat ∧
  pending s1 = [(nextId s, ((now s + wait)%nat, a))] ∧
  invoked s1 = invoked s ∧
  ((wait ≤ sum_list ds)%nat →
     invoked (fire 0 s1) = invoked s ++ [((now s + sum_list ds)%nat, a)] ∧
     pending (fire 0 s1) = []) ∧
  ((sum_list ds < wait)%nat → fire 0 s1 = s1).
Proof.
  intros s s1.
  assert (Hs : single s) by (apply debounce_run_single; by left).
  assert (E1 : s1 = elapse (sum_list ds) (call wait a s)).
  { unfold s1. by rewrite debounce_run_cons, debounce_run_elapse. }
  clearbody s1. subst s1.
  assert (P1 : pending (elapse (sum_list ds) (call wait a s)) =
               [(nextId s, ((now s + wait)%nat, a))]).
  { cbn. by rewrite single_clear. }
  split; [|split; [exact P1|split; [done|split]]].
  - destruct Hs as [->|(id & due & b & -> & _)]; cbn; lia.
  - intros Hw. unfold fire. rewrite P1. cbn [lookup list_lookup].
    assert (L : (now s + wait <=? now (elapse (sum_list ds) (call wait a s)))%nat
                = true) by (apply Nat.leb_le; cbn; lia).
    rewrite L. cbn. done.
  - intros Hw. unfold fire. rewrite P1. cbn [lookup list_lookup].
    assert (L : (now s + wait <=? now (elapse (sum_list ds) (call wait a s)))%nat
                = false) by (apply Nat.leb_gt; cbn; lia).
    by rewrite L.
Qed.

End DebounceFacts.

Lemma debounce_last_call_wins_sample :
  let s := Debounce.run 100 Samples.debounceEvents Debounce.idle in
  let s1 := Debounce.run 100 (Debounce.Call 2%nat :: map Debounce.Elapse [60; 40]%nat) s in
  Debounce.invoked (Debounce.fire 0 s1) = [(130%nat, 2%nat)] ∧
  Debounce.pending (Debounce.fire 0 s1) = [].
Proof.
  apply (debounce_last_call_wins 100 Samples.debounceEvents 2%nat [60; 40]%nat).
  cbn. lia.
Defined.

(** ** Animated scrolling *)
Section SmoothScrollFacts.

Import Utils SmoothScroll.

Lemma easeInOutCubic_unit (t : Q) :
  0 <= t <= 1 → ∃ v : Q, easeInOutCubic (Finite t) = Finite v ∧ 0 <= v <= 1.
Proof.
  intros [H0 H1]. destruct (Qlt_le_dec t (1 # 2)) as [H|H].
  - eexists. split; [by apply easeInOutCubic_low|]. by apply easeIn_range.
  - eexists. split; [by apply easeInOutCubic_high|]. by apply easeOut_range.
Qed.

Lemma easeInOutCubic_at_one (t : Q) :
  t == 1 → ∃ v : Q, easeInOutCubic (Finite t) = Finite v ∧ v == 1.
Proof.
  intros E. eexists. split; [apply easeInOutCubic_high; lra|].
  rewrite E. reflexivity.
Qed.

Lemma easeInOutCubic_at_zero (t : Q) :
  t == 0 → ∃ v : Q, easeInOutCubic (Finite t) = Finite v ∧ v == 0.
Proof.
  intros E. eexists. split; [apply easeInOutCubic_low; lra|].
  rewrite E. reflexivity.
Qed.

(** A frame of an animation with finite parameters, in numbers. *)
Lemma animationFrame_finite (y0 dist d t0 t v : Q) (p : progress) :
  0 < d →
  startTime p = Some (Finite t0) ∨ (startTime p = None ∧ t0 = t) →
  easeInOutCubic (Finite ((t + - t0) / d)) = Finite v →
  animationFrame {| startPosition := Finite y0; distance := Finite dist;
                    duration := Finite d |} (Finite t) p =
    {| startTime := Some (Finite t0);
       scrolled := scrolled p ++ [Finite (y0 + v * dist)];
       requested := (Finite (t + - t0) <? Finite d)%js |}.
Proof.
  intros Hd Hst Hv. unfold animationFrame. cbn [duration distance startPosition].
  assert (Hne : ¬ d == 0) by lra.
  destruct Hst as [->|[-> ->]]; cbn [sub neg add];
    rewrite div_finite, Hv by done; reflexivity.
Qed.


Lemma easeInOutCubic_past_one (t : Q) :
  1 < t → ∃ v : Q, easeInOutCubic (Finite t) = Finite v ∧ 1 < v.
Proof.
  intros H. eexists. split; [apply easeInOutCubic_high; lra|].
  assert (P : 0 < t - 1) by lra. pose proof (cube_pos _ P) as C.
  assert (E : (t + - 1) * (2 * t + - 2) * (2 * t + - 2) + 1 ==
              1 + 4 * ((t - 1) * (t - 1) * (t - 1))) by ring.
  rewrite E. lra.
Qed.

Lemma play_stopped (a : animation) (times : list number) (p : progress) :
  requested p = false → play a times p = p.
Proof.
  intros H. induction times as [|t times IH]; [done|].
  unfold play in *. cbn [foldl]. unfold frame at 2. by rewrite H.
Qed.


End SmoothScrollFacts.



(** ** More on the navigation *)
Section NavigationMore.

Import Navigation MenuSync.

Lemma elem_of_add (c a : string) (l : ClassList.t) :
  c ∈ ClassList.add a l ↔ c = a ∨ c ∈ l.
Proof.
  unfold ClassList.add, ClassList.contains. case_bool_decide as H.
  - split; [by right|]. intros [->|?]; done.
  - rewrite elem_of_app, list_elem_of_singleton. tauto.
Qed.

Lemma elem_of_remove (c a : string) (l : ClassList.t) :
  c ∈ ClassList.remove a l ↔ c ≠ a ∧ c ∈ l.
Proof. unfold ClassList.remove. by rewrite list_elem_of_filter. Qed.

Lemma lookup_map {X Y : Type} (f : X → Y) (l : list X) (i : nat) (x : X) :
  l !! i = Some x → map f l !! i = Some (f x).
Proof.
  revert i. induction l as [|y l IH]; intros [|i] H; cbn in *; try done.
  - by injection H as ->.
  - by apply IH.
Qed.

(** X11: a call of setActiveLink with an id other than the current one
    leaves exactly the links whose data-section is that id with the
    [active] class; every other class of every link, its href and its
    data-section are as before, and currentSection is the id. *)
Theorem setActiveLink_marks_exactly (id : string) (s : nav) :
  currentSection s ≠ id →
  let s' := (setActiveLink id s).1 in
  currentSection s' = id ∧
  length (navLinkItems s') = length (navLinkItems s) ∧
  ∀ (i : nat) (l : link), navLinkItems s !! i = Some l →
    ∃ l', navLinkItems s' !! i = Some l' ∧
      href l' = href l ∧ dataSection l' = dataSection l ∧
      ("active" ∈ linkClasses l' ↔ dataSection l = Some id) ∧
      (∀ c, c ≠ "active" → c ∈ linkClasses l' ↔ c ∈ linkClasses l).
Proof.
  intros Hne s'. unfold s', setActiveLink.
  rewrite bool_decide_eq_false_2 by done. cbn [fst navLinkItems currentSection].
  split; [done|]. split; [by rewrite length_map|].
  intros i l Hl. exists (toggleLink id l).
  split; [by apply lookup_map|]. split; [done|]. split; [done|].
  unfold toggleLink, isActive. cbn [linkClasses].
  destruct (dataSection l) as [d|].
  - case_bool_decide as Hd; cbn [ClassList.toggle].
    + subst d. split.
      * rewrite elem_of_add. split; [done|]. by left.
      * intros c Hc. rewrite elem_of_add. split; [by intros [?|?]|by right].
    + split.
      * rewrite elem_of_remove. split; [by intros [? _]|].
        intros E. by injection E.
      * intros c Hc. rewrite elem_of_remove. tauto.
  - cbn [ClassList.toggle]. split.
    + rewrite elem_of_remove. split; [by intros [? _]|done].
    + intros c Hc. rewrite elem_of_remove. tauto.
Qed.

Lemma setActiveLink_marks_exactly_sample :
  let s' := (setActiveLink "about" Samples.nav0).1 in
  currentSection s' = "about" ∧
  length (navLinkItems s') = length (navLinkItems Samples.nav0) ∧
  ∀ (i : nat) (l : link), navLinkItems Samples.nav0 !! i = Some l →
    ∃ l', navLinkItems s' !! i = Some l' ∧
      href l' = href l ∧ dataSection l' = dataSection l ∧
      ("active" ∈ linkClasses l' ↔ dataSection l = Some "about"%string) ∧
      (∀ c, c ≠ "active" → c ∈ linkClasses l' ↔ c ∈ linkClasses l).
Proof.
  apply (setActiveLink_marks_exactly "about" Samples.nav0). discriminate.
Defined.

Lemma spyCallback_fold (es : list spy_entry) (s : nav) (ws : list dom_write) :
  (foldl (λ acc entry,
            if spyIntersecting entry then
              let r := setActiveLink (targetId entry) acc.1 in
              (r.1, acc.2 ++ r.2)
            else acc) (s, ws) es).1 = (spyCallback es s).1.
Proof.
  unfold spyCallback. generalize (@nil dom_write) as ws'. revert s ws.
  induction es as [|e es IH]; intros s ws ws'; [done|].
  cbn [foldl]. destruct (spyIntersecting e); cbn [fst snd]; apply IH.
Qed.

Lemma spyCallback_cons (e : spy_entry) (es : list spy_entry) (s : nav) :
  (spyCallback (e :: es) s).1 =
    (spyCallback es (if spyIntersecting e
                     then (setActiveLink (targetId e) s).1 else s)).1.
Proof.
  unfold spyCallback at 1. cbn [foldl].
  destruct (spyIntersecting e); cbn [fst snd]; apply spyCallback_fold.
Qed.

(** X12: after the scroll spy's callback, currentSection is the id of the
    last entry that is intersecting; a batch without an intersecting entry
    leaves it as it was. *)
Theorem spyCallback_last_intersecting (es : list spy_entry) (s : nav) :
  currentSection (spyCallback es s).1 =
    default (currentSection s) (last (intersectingIds es)).
Proof.
  revert s. induction es as [|e es IH]; intros s; [done|].
  rewrite spyCallback_cons, IH. unfold intersectingIds.
  destruct (spyIntersecting e) eqn:E.
  - rewrite filter_cons_True by done. rewrite fmap_cons.
    rewrite setActiveLink_current.
    destruct (targetId <$> filter (λ e0, spyIntersecting e0 = true) es)
      as [|x l]; [done|].
    rewrite last_cons_cons.
    destruct (last (x :: l)) eqn:El; [done|]. by apply last_None in El.
  - rewrite filter_cons_False by (by rewrite E). done.
Qed.

Lemma spyCallback_menu (es : list spy_entry) (s : nav) :
  isNavOpen (spyCallback es s).1 = isNavOpen s ∧
  menu_view (spyCallback es s).1 = menu_view s ∧
  innerWidth (spyCallback es s).1 = innerWidth s.
Proof.
  revert s. induction es as [|e es IH]; intros s; [done|].
  rewrite spyCallback_cons. destruct (IH (if spyIntersecting e
    then (setActiveLink (targetId e) s).1 else s)) as (H1 & H2 & H3).
  rewrite H1, H2, H3. destruct (spyIntersecting e); [|done].
  apply setActiveLink_frame.
Qed.

Lemma closeMobileNav_inSync (s : nav) : inSync (closeMobileNav s).
Proof. unfold inSync. cbn [isNavOpen closeMobileNav]. apply closeMobileNav_closed. Qed.

Lemma toggleClick_inSync (s : nav) : inSync s → inSync (toggleClick s).
Proof.
  unfold inSync. intros H. destruct (isNavOpen s) eqn:E.
  - rewrite toggleClick_of_open by done. apply closeMobileNav_closed.
  - rewrite toggleClick_opens by done. unfold toggleClick. rewrite E. cbn.
    repeat split; apply add_present.
Qed.

Lemma step_inSync (e : event) (s : nav) : inSync s → inSync (step e s).
Proof.
  intros H. destruct e as [t b|k|w|es]; cbn [step].
  - assert (D : ∀ s', inSync s' → inSync (documentClick b s')).
    { intros s' H'. unfold documentClick.
      destruct (_ && _); [apply closeMobileNav_inSync|done]. }
    destruct t; apply D; [by apply toggleClick_inSync| |done].
    unfold linkClick. destruct (_ <=? _)%Z; [apply closeMobileNav_inSync|done].
  - unfold keydown. destruct (_ && _); [apply closeMobileNav_inSync|done].
  - exact H.
  - destruct (spyCallback_menu es s) as (H1 & H2 & _).
    unfold inSync, closed, menu_view in *. rewrite H1.
    injection H2 as -> -> ->. exact H.
Qed.

Lemma nav_run_cons (e : event) (es : list event) (s : nav) :
  run (e :: es) s = run es (step e s).
Proof. reflexivity. Qed.

(** X13: the flag and the page stay in step.  Starting from a closed menu,
    after any sequence of clicks, key presses, resizes and scroll-spy
    reports, isNavOpen is true exactly when the toggle and the link
    container both carry [active] and the body's overflow is hidden, and
    otherwise none of the three is set. *)
Theorem menu_flag_and_page_in_sync (s : nav) (es : list event) :
  closed s → inSync (run es s).
Proof.
  intros Hc. assert (H : inSync s).
  { unfold inSync. destruct Hc as [Ho Hr]. rewrite Ho. by split. }
  clear Hc. revert s H. induction es as [|e es IH]; intros s H; [done|].
  rewrite nav_run_cons. by apply IH, step_inSync.
Qed.

Lemma menu_flag_and_page_in_sync_sample :
  inSync (run [Click OnToggle true; Resize 1024; Click OnNavLink true;
               KeyDown "Escape"; Click OnToggle true] Samples.nav0).
Proof.
  apply (menu_flag_and_page_in_sync Samples.nav0).
  unfold closed; cbn; repeat split; try reflexivity;
    by apply (bool_decide_unpack _).
Defined.

(** X14: the scroll spy and the mobile menu do not touch each other's
    state: a scroll-spy report changes neither isNavOpen nor the menu's
    classes and overflow style nor the width, and no click, key press or
    resize changes currentSection or any nav link. *)
Theorem scroll_spy_and_menu_independent (e : event) (s : nav) :
  match e with
  | Intersection _ =>
      isNavOpen (step e s) = isNavOpen s ∧
      menu_view (step e s) = menu_view s ∧
      innerWidth (step e s) = innerWidth s
  | _ =>
      currentSection (step e s) = currentSection s ∧
      navLinkItems (step e s) = navLinkItems s
  end.
Proof.
  destruct e as [t b|k|w|es]; cbn [step].
  - unfold documentClick, linkClick.
    destruct t; repeat (match goal with |- context [if ?c then _ else _] =>
                                      destruct c end); done.
  - unfold keydown. by destruct (_ && _).
  - done.
  - apply spyCallback_menu.
Qed.

End NavigationMore.

(** ** More on the contact form *)
Section ContactFormMore.

Import Text ContactForm FormClock.

Lemma showStatus_frame (msg : ustring) (type : string) (s : page) :
  fields (showStatus msg type s) = fields s ∧
  defaults (showStatus msg type s) = defaults s ∧
  submitText (showStatus msg type s) = submitText s ∧
  submitDisabled (showStatus msg type s) = submitDisabled s ∧
  now (showStatus msg type s) = now s.
Proof. unfold showStatus. by destruct (formStatus s). Qed.

Lemma showStatus_missing (msg : ustring) (type : string) (s : page) :
  formStatus s = None → showStatus msg type s = s.
Proof. intros H. unfold showStatus. by rewrite H. Qed.

Lemma showStatus_present (msg : ustring) (type : string) (s : page) (st : status_el) :
  formStatus s = Some st →
  formStatus (showStatus msg type s) =
    Some {| textContent := msg; className := "form-status " +:+ type |} ∧
  timers (showStatus msg type s) = timers s ++ [((now s + 5000)%nat, HideStatus)].
Proof. intros H. unfold showStatus. by rewrite H. Qed.

Lemma validateForm_rejected (d : formData) (s : page) :
  (validateForm d s).1 = false →
  ∃ m, m ∈ [nameError; emailError; messageError] ∧
       (validateForm d s).2 = showStatus m "error" s.
Proof.
  unfold validateForm. intros H.
  repeat (match type of H with context [if ?c then _ else _] =>
            destruct c end); try discriminate H; cbn [snd];
    eexists; (split; [|reflexivity]); set_solver.
Qed.

(** X15: a submit that fails validation never reaches the submission: the
    form's fields and the submit control's label and disabled flag are
    exactly as before, and nothing is scheduled but the hiding of the
    error status, which carries one of the three messages; without a
    status element the page does not change at all. *)
Theorem handleSubmit_invalid_leaves_form (s : page) :
  (validateForm (fields s) s).1 = false →
  fields (handleSubmit s) = fields s ∧
  submitText (handleSubmit s) = submitText s ∧
  submitDisabled (handleSubmit s) = submitDisabled s ∧
  match formStatus s with
  | Some _ =>
      timers (handleSubmit s) = timers s ++ [((now s + 5000)%nat, HideStatus)] ∧
      ∃ m, m ∈ [nameError; emailError; messageError] ∧
           formStatus (handleSubmit s) =
             Some {| textContent := m; className := "form-status error" |}
  | None => handleSubmit s = s
  end.
Proof.
  intros H. unfold handleSubmit. cbn zeta. rewrite H.
  destruct (validateForm_rejected _ _ H) as (m & Hm & ->).
  destruct (showStatus_frame m "error" s) as (F1 & _ & F3 & F4 & _).
  split; [done|]. split; [done|]. split; [done|].
  destruct (formStatus s) as [st|] eqn:E.
  - destruct (showStatus_present m "error" s st E) as [P1 P2].
    split; [done|]. by exists m.
  - by apply showStatus_missing.
Qed.

Lemma handleSubmit_invalid_leaves_form_sample :
  submitDisabled (handleSubmit (Samples.pageWith Samples.badEmail)) = false ∧
  fields (handleSubmit (Samples.pageWith Samples.badEmail)) = Samples.badEmail.
Proof.
  destruct (handleSubmit_invalid_leaves_form (Samples.pageWith Samples.badEmail))
    as (F & _ & D & _); [reflexivity|].
  split; [exact D | exact F].
Defined.

Lemma validateForm_result (d : formData) (s s' : page) :
  (validateForm d s).1 = (validateForm d s').1.
Proof.
  unfold validateForm.
  repeat (match goal with |- context [if ?c then _ else _] => destruct c end);
    reflexivity.
Qed.

(** X16: the form works without a status element, silently.  Whether a
    record is accepted never depends on the page; with the element
    missing, validation leaves the page as it is, and the callback that
    ends a submission still resets the form, restores the label and
    enables the control, showing nothing and scheduling nothing. *)
Theorem contact_form_without_status_element
    (d : formData) (orig : ustring) (s : page) :
  formStatus s = None →
  (∀ s' : page, (validateForm d s).1 = (validateForm d s').1) ∧
  (validateForm d s).2 = s ∧
  formStatus (fire (FinishSubmission d orig) s) = None ∧
  fields (fire (FinishSubmission d orig) s) = defaults s ∧
  submitText (fire (FinishSubmission d orig) s) = orig ∧
  submitDisabled (fire (FinishSubmission d orig) s) = false ∧
  timers (fire (FinishSubmission d orig) s) = timers s.
Proof.
  intros H. split; [apply validateForm_result|]. split.
  - unfold validateForm.
    repeat (match goal with |- context [if ?c then _ else _] => destruct c end);
      cbn [snd]; try done; by apply showStatus_missing.
  - cbn [fire]. rewrite showStatus_missing by done. cbn. by rewrite H.
Qed.

Lemma contact_form_without_status_element_sample :
  (validateForm Samples.badEmail (Samples.pageWithoutStatus Samples.badEmail)).2
    = Samples.pageWithoutStatus Samples.badEmail.
Proof.
  apply (contact_form_without_status_element Samples.badEmail []
           (Samples.pageWithoutStatus Samples.badEmail)).
  reflexivity.
Defined.

(** X17: a status is hidden by resetting its class 5000 ms after it was
    shown, and its text stays.  A pending hide timer is never cancelled:
    when a second status is shown dt < 5000 ms after a first one, the
    next callback to run is the first status's, 5000 ms after the first
    was shown, and it hides the second status, whose own timer is still
    pending. *)
Theorem status_hidden_by_earlier_timer
    (m1 m2 : ustring) (ty1 ty2 : string) (dt : nat) (s : page) (st : status_el) :
  formStatus s = Some st →
  timers s = [] →
  (dt < 5000)%nat →
  let s1 := showStatus m1 ty1 s in
  let s2 := showStatus m2 ty2 (elapse dt s1) in
  (∃ h, tick s1 = Some h ∧ now h = (now s + 5000)%nat ∧
        formStatus h = Some {| textContent := m1; className := "form-status" |} ∧
        timers h = []) ∧
  formStatus s2 =
    Some {| textContent := m2; className := "form-status " +:+ ty2 |} ∧
  ∃ s3, tick s2 = Some s3 ∧
        now s3 = (now s + 5000)%nat ∧
        formStatus s3 = Some {| textContent := m2; className := "form-status" |} ∧
        timers s3 = [((now s + dt + 5000)%nat, HideStatus)].
Proof.
  intros Hst Ht Hdt s1 s2. subst s1 s2.
  destruct s as [f df tx dis fs n ts]. cbn in Hst, Ht. subst fs ts.
  unfold showStatus, elapse, tick. cbn -[Nat.leb Nat.max Nat.add].
  split; [|split; [done|]].
  - eexists. split; [reflexivity|]. cbn -[Nat.leb Nat.max Nat.add].
    split; [lia|done].
  - assert (L : (n + 5000 <=? n + dt + 5000)%nat = true)
      by (apply Nat.leb_le; lia).
    rewrite L. eexists. split; [reflexivity|].
    cbn -[Nat.leb Nat.max Nat.add]. split; [lia|done].
Qed.

Lemma notSpaceNorAt_spec (c : N) :
  notSpaceNorAt c = true ↔ isWhiteSpace c = false ∧ c ≠ N_of_ascii "@"%char.
Proof.
  unfold notSpaceNorAt. rewrite negb_true_iff, orb_false_iff, N.eqb_neq. done.
Qed.

Lemma countAt_app (s1 s2 : ustring) : countAt (s1 ++ s2) = (countAt s1 + countAt s2)%nat.
Proof. unfold countAt. by rewrite filter_app, length_app. Qed.

Lemma countAt_run (s : ustring) :
  Forall (λ c, notSpaceNorAt c = true) s → countAt s = 0%nat.
Proof.
  unfold countAt. induction 1 as [|c s Hc _ IH]; [done|].
  apply notSpaceNorAt_spec in Hc as [_ Hc].
  by rewrite filter_cons_False.
Qed.

Lemma run_no_space (s : ustring) :
  Forall (λ c, notSpaceNorAt c = true) s → Forall (λ c, isWhiteSpace c = false) s.
Proof.
  intros H. eapply Forall_impl; [exact H|].
  intros c Hc. by apply notSpaceNorAt_spec in Hc as [? _].
Qed.

Lemma nonempty_length {X : Type} (l : list X) : l ≠ [] → (1 ≤ length l)%nat.
Proof. destruct l; [done|]. cbn. lia. Qed.

(** X18: every address isValidEmail accepts has exactly one [@], no
    whitespace anywhere, and at least five code units. *)
Theorem isValidEmail_necessary (e : ustring) :
  isValidEmail e = true →
  countAt e = 1%nat ∧
  Forall (λ c, isWhiteSpace c = false) e ∧
  (5 ≤ length e)%nat.
Proof.
  intros H. apply isValidEmail_shape in H
    as (l & d & t & -> & Hl & Hd & Ht & Fl & Fd & Ft).
  split; [|split].
  - rewrite !countAt_app.
    rewrite (countAt_run l Fl), (countAt_run d Fd), (countAt_run t Ft).
    reflexivity.
  - rewrite !Forall_app. repeat split; try (by apply run_no_space);
      by repeat constructor.
  - rewrite !length_app. apply nonempty_length in Hl, Hd, Ht. cbn. lia.
Qed.

Lemma isValidEmail_necessary_sample :
  countAt (email Samples.goodRecord) = 1%nat ∧
  Forall (λ c, isWhiteSpace c = false) (email Samples.goodRecord) ∧
  (5 ≤ length (email Samples.goodRecord))%nat.
Proof.
  apply (isValidEmail_necessary (email Samples.goodRecord)). reflexivity.
Defined.

(** The expression is a light check: it accepts a domain that starts with
    a dot and one with two dots in a row. *)
Example isValidEmail_accepts_odd_domains :
  isValidEmail (lit "a@.b.c") = true ∧ isValidEmail (lit "a@b..c") = true.
Proof. split; reflexivity. Qed.

End ContactFormMore.

Lemma status_hidden_by_earlier_timer_sample :
  let s := Samples.pageWith Samples.emptyName in
  let s1 := ContactForm.showStatus ContactForm.nameError "error" s in
  let s2 := ContactForm.showStatus ContactForm.emailError "error"
              (FormClock.elapse 3000 s1) in
  ∃ s3, ContactForm.tick s2 = Some s3 ∧
        ContactForm.now s3 = 5000%nat ∧
        ContactForm.formStatus s3 =
          Some {| ContactForm.textContent := ContactForm.emailError;
                  ContactForm.className := "form-status" |}.
Proof.
  destruct (status_hidden_by_earlier_timer
              ContactForm.nameError ContactForm.emailError "error" "error" 3000
              (Samples.pageWith Samples.emptyName)
              {| ContactForm.textContent := [];
                 ContactForm.className := "form-status" |})
    as (_ & _ & s3 & H1 & H2 & H3 & _).
  - reflexivity.
  - reflexivity.
  - lia.
  - exists s3. split; [exact H1|]. split; [exact H2 | exact H3].
Defined.

(** ** More on reveal-on-scroll *)
Section RevealMore.

Import Reveal.

Lemma onEntry_timers (e : entry) (k : nat) (s : state) :
  timers (onEntry e k s) =
    timers s ++ (if isIntersecting e then [((now s + k * 50)%nat, target e)] else []).
Proof. unfold onEntry. destruct (isIntersecting e); cbn; [done|by rewrite app_nil_r]. Qed.

Lemma onEntry_now (e : entry) (k : nat) (s : state) : now (onEntry e k s) = now s.
Proof. unfold onEntry. by destruct (isIntersecting e). Qed.

Lemma callbackFrom_now (es : list entry) (k : nat) (s : state) :
  now (callbackFrom k es s) = now s.
Proof.
  revert k s. induction es as [|e es IH]; intros k s; [done|].
  cbn. rewrite IH. apply onEntry_now.
Qed.

Lemma callbackFrom_timers_prefix (es : list entry) (k : nat) (s : state) :
  ∃ new, timers (callbackFrom k es s) = timers s ++ new ∧
         length new = length (filter (λ e, isIntersecting e = true) es).
Proof.
  revert k s. induction es as [|e es IH]; intros k s.
  - exists []. by rewrite app_nil_r.
  - cbn [callbackFrom]. destruct (IH (S k) (onEntry e k s)) as (new & -> & Hl).
    rewrite onEntry_timers. destruct (isIntersecting e) eqn:E.
    + exists (((now s + k * 50)%nat, target e) :: new).
      rewrite <- app_assoc. split; [done|].
      rewrite filter_cons_True by done. cbn. by rewrite Hl.
    + exists new. rewrite app_nil_r. split; [done|].
      by rewrite filter_cons_False by (by rewrite E).
Qed.

Lemma callbackFrom_schedules (es : list entry) (k0 : nat) (s : state)
    (k : nat) (e : entry) :
  es !! k = Some e → isIntersecting e = true →
  ((now s + (k0 + k) * 50)%nat, target e) ∈ timers (callbackFrom k0 es s).
Proof.
  revert k0 s k. induction es as [|x es IH]; intros k0 s k Hk Hi; [done|].
  cbn [callbackFrom]. destruct k as [|k]; cbn in Hk.
  - injection Hk as ->.
    destruct (callbackFrom_timers_prefix es (S k0) (onEntry e k0 s))
      as (new & -> & _).
    rewrite onEntry_timers, Hi. rewrite Nat.add_0_r.
    apply elem_of_app. left. apply elem_of_app. right.
    by apply list_elem_of_singleton.
  - specialize (IH (S k0) (onEntry x k0 s) k Hk Hi).
    rewrite onEntry_now in IH.
    by replace (k0 + S k)%nat with (S k0 + k)%nat by lia.
Qed.

(** X19: the stagger.  A batch of entries adds one timer for each
    intersecting entry and nothing else; the timer of the entry at
    position k of the batch (counting the entries that are not
    intersecting too) is due k * 50 ms later, and when it fires the target,
    if it is one of the reveal elements, carries [show]. *)
Theorem reveal_stagger (entries : list entry) (s : state) :
  length (timers (callback entries s)) =
    (length (timers s) + length (filter (λ e, isIntersecting e = true) entries))%nat ∧
  ∀ (k : nat) (e : entry),
    entries !! k = Some e → isIntersecting e = true →
    ∃ k', timers (callback entries s) !! k' = Some ((now s + k * 50)%nat, target e) ∧
          ((target e < length (classes s))%nat →
           shown (target e) (step (Timeout k') (callback entries s)) = true).
Proof.
  unfold callback. split.
  - destruct (callbackFrom_timers_prefix entries 0 s) as (new & -> & Hl).
    by rewrite length_app, Hl.
  - intros k e Hk Hi.
    pose proof (callbackFrom_schedules entries 0 s k e Hk Hi) as Hin.
    apply list_elem_of_lookup in Hin as [k' Hk']. cbn in Hk'.
    exists k'. split; [done|]. intros Hlt.
    apply (timeout_shows _ _ (now s + k * 50)%nat); [|done].
    by rewrite callbackFrom_classes.
Qed.

Lemma reveal_stagger_sample :
  ∃ k', timers (callback [{| target := 0; isIntersecting := false |};
                          {| target := 1; isIntersecting := true |}]
                  Samples.reveal0) !! k'
        = Some ((0 + 1 * 50)%nat, 1%nat).
Proof.
  destruct (proj2 (reveal_stagger [{| target := 0; isIntersecting := false |};
                                   {| target := 1; isIntersecting := true |}]
                     Samples.reveal0)
              1%nat {| target := 1; isIntersecting := true |})
    as (k' & Hk' & _); [reflexivity|reflexivity|].
  by exists k'.
Defined.

Lemma step_classes_other (e : event) (s : state) (j : nat) (cl : ClassList.t) :
  classes s !! j = Some cl →
  ∃ cl', classes (step e s) !! j = Some cl' ∧
         ∀ c, c ≠ "show" → c ∈ cl' ↔ c ∈ cl.
Proof.
  intros Hj. destruct e as [es|k]; cbn.
  - unfold callback. rewrite callbackFrom_classes. by exists cl.
  - destruct (timers s !! k) as [[due t]|]; [|by exists cl].
    cbn. destruct (decide (t = j)) as [->|Hne].
    + rewrite list_lookup_alter_eq, Hj. cbn. eexists. split; [done|].
      intros c Hc. rewrite elem_of_add. split; [by intros [?|?]|by right].
    + rewrite list_lookup_alter_ne by done. by exists cl.
Qed.

(** X20: the reveal code only ever adds [show].  Along any sequence of
    deliveries and timer firings every element keeps every class it had:
    for each class other than [show], an element has it afterwards exactly
    when it had it before. *)
Theorem reveal_touches_only_show
    (es : list event) (s : state) (j : nat) (cl : ClassList.t) :
  classes s !! j = Some cl →
  ∃ cl', classes (run es s) !! j = Some cl' ∧
         ∀ c, c ≠ "show" → c ∈ cl' ↔ c ∈ cl.
Proof.
  revert s cl. induction es as [|e es IH]; intros s cl Hj.
  - by exists cl.
  - rewrite run_cons.
    destruct (step_classes_other e s j cl Hj) as (cl1 & H1 & E1).
    destruct (IH _ _ H1) as (cl2 & H2 & E2).
    exists cl2. split; [done|]. intros c Hc. by rewrite E2, E1.
Qed.

Lemma reveal_touches_only_show_sample :
  ∃ cl', classes (run Samples.revealEvents Samples.reveal0) !! 1%nat = Some cl' ∧
         ∀ c, c ≠ "show" → c ∈ cl' ↔ c ∈ ["reveal"].
Proof.
  apply (reveal_touches_only_show Samples.revealEvents Samples.reveal0 1).
  reflexivity.
Defined.

End RevealMore.

(** ** Lazy images *)
Section LazyImagesFacts.

Import LazyImages.

Lemma orElse_idem (a : option string) (b : string) :
  orElse a (orElse a b) = orElse a b.
Proof. by destruct a as [[|c r]|]. Qed.

Lemma load_idem (im : image) : load (load im) = load im.
Proof.
  unfold load. cbn. by rewrite orElse_idem, remove_remove.
Qed.

Lemma onEntry_other (s : state) (e : Reveal.entry) (j : nat) :
  ¬ (Reveal.target e = j ∧ Reveal.isIntersecting e = true) →
  images (onEntry s e) !! j = images s !! j ∧
  (j ∈ observed (onEntry s e) ↔ j ∈ observed s).
Proof.
  intros H. unfold onEntry. destruct (Reveal.isIntersecting e) eqn:E; [|done].
  assert (Hne : Reveal.target e ≠ j) by (intros Heq; by apply H).
  cbn. split; [by apply list_lookup_alter_ne|].
  rewrite elem_of_difference, elem_of_singleton. split; [by intros [? _]|].
  intros Hj. split; [done|]. intros Heq. by apply Hne.
Qed.

Lemma callback_observed (es : list Reveal.entry) (s : state) :
  observed (callback es s) ⊆ observed s.
Proof.
  revert s. induction es as [|e es IH]; intros s; [done|].
  unfold callback in *. cbn [foldl]. etrans; [apply IH|].
  unfold onEntry. destruct (Reveal.isIntersecting e); [|done].
  cbn. by apply subseteq_difference_l.
Qed.

Lemma callback_loaded_stays (es : list Reveal.entry) (s : state)
    (j : nat) (im : image) :
  images s !! j = Some (load im) →
  images (callback es s) !! j = Some (load im).
Proof.
  revert s. induction es as [|e es IH]; intros s Hj; [done|].
  unfold callback in *. cbn [foldl]. apply IH.
  unfold onEntry. destruct (Reveal.isIntersecting e); [|done]. cbn.
  destruct (decide (Reveal.target e = j)) as [->|Hne].
  - rewrite list_lookup_alter_eq, Hj. cbn. by rewrite load_idem.
  - by rewrite list_lookup_alter_ne.
Qed.

(** X21: loading is one-shot per image.  After a batch of entries, an
    image that some entry reported as intersecting has been loaded once,
    however often it was reported: its source is its non-empty data-src if
    it has one and its old source otherwise, [lazy] is gone from its
    classes, and it is no longer observed.  An image no entry reported is
    exactly as before and keeps its place among the observer's targets. *)
Theorem lazy_images_load_once
    (entries : list Reveal.entry) (s : state) (j : nat) (im : image) :
  images s !! j = Some im →
  (reported j entries →
     images (callback entries s) !! j = Some (load im) ∧
     src (load im) = orElse (dataSrc im) (src im) ∧
     ("lazy" ∉ imgClasses (load im)) ∧
     j ∉ observed (callback entries s)) ∧
  (¬ reported j entries →
     images (callback entries s) !! j = Some im ∧
     (j ∈ observed (callback entries s) ↔ j ∈ observed s)).
Proof.
  revert s. induction entries as [|e es IH]; intros s Hj.
  - split; [intros (e & He & _); by apply elem_of_nil in He|done].
  - unfold callback in *. cbn [foldl].
    destruct (decide (Reveal.target e = j ∧ Reveal.isIntersecting e = true))
      as [[Ht Hi]|Hno].
    + split; [|intros Hn; exfalso; apply Hn; exists e; split; [by left|done]].
      intros _.
      assert (Hl : images (onEntry s e) !! j = Some (load im)).
      { unfold onEntry. rewrite Hi, Ht. cbn.
        by rewrite list_lookup_alter_eq, Hj. }
      split; [by apply (callback_loaded_stays es)|].
      split; [done|]. split; [apply remove_gone|].
      intros Hin. apply (callback_observed es) in Hin.
      unfold onEntry in Hin. rewrite Hi, Ht in Hin. cbn in Hin.
      apply elem_of_difference in Hin as [_ Hin]. apply Hin.
      by apply elem_of_singleton.
    + destruct (onEntry_other s e j Hno) as [Him Hobs].
      rewrite Hj in Him. destruct (IH _ Him) as [IH1 IH2].
      split.
      * intros (x & Hx & Hxt & Hxi). apply IH1.
        apply elem_of_cons in Hx as [->|Hx]; [by destruct Hno|].
        by exists x.
      * intros Hn. rewrite <- Hobs. apply IH2.
        intros (x & Hx & Hxt & Hxi). apply Hn. exists x.
        split; [by right|done].
Qed.

Lemma lazy_images_load_once_sample :
  images (callback [{| Reveal.target := 0; Reveal.isIntersecting := true |};
                    {| Reveal.target := 0; Reveal.isIntersecting := true |}]
            Samples.lazy0) !! 0%nat
  = Some {| src := "photo.jpg"; dataSrc := Some "photo.jpg"%string;
            imgClasses := ["thumb"] |}.
Proof.
  eapply (proj1 (lazy_images_load_once _ Samples.lazy0 0
                   {| src := "placeholder.png";
                      dataSrc := Some "photo.jpg"%string;
                      imgClasses := ["lazy"; "thumb"] |} eq_refl)).
  eexists. split; [by left|]. done.
Defined.

End LazyImagesFacts.

(** ** Focus styling *)
Section FocusFacts.

Import Focus.

Lemma focus_step_class (body : ClassList.t) (e : event) :
  ClassList.contains "keyboard-navigation" (step body e) =
    default (ClassList.contains "keyboard-navigation" body) (keyboard e).
Proof.
  destruct e as [key|]; cbn.
  - case_bool_decide; [|done]. cbn.
    apply bool_decide_eq_true_2, add_present.
  - apply bool_decide_eq_false_2, remove_gone.
Qed.

Lemma focus_step_others (body : ClassList.t) (e : event) (c : string) :
  c ≠ "keyboard-navigation" → c ∈ step body e ↔ c ∈ body.
Proof.
  intros Hc. destruct e as [key|]; cbn.
  - case_bool_decide; [|done]. rewrite elem_of_add. split; [by intros [?|?]|by right].
  - rewrite elem_of_remove. tauto.
Qed.

(** X22: the body carries [keyboard-navigation] exactly when the last Tab
    key press came after the last mouse press; with neither in the
    sequence the class is as it was.  No other class of the body is ever
    changed. *)
Theorem focus_class_follows_last_input (es : list event) (body : ClassList.t) :
  ClassList.contains "keyboard-navigation" (run es body) =
    default (ClassList.contains "keyboard-navigation" body) (lastInput es) ∧
  ∀ c, c ≠ "keyboard-navigation" → c ∈ run es body ↔ c ∈ body.
Proof.
  revert body. induction es as [|e es IH]; intros body; [done|].
  unfold run in *. cbn [foldl lastInput].
  destruct (IH (step body e)) as [H1 H2]. split.
  - rewrite H1. destruct (lastInput es); [done|]. apply focus_step_class.
  - intros c Hc. rewrite H2 by done. by apply focus_step_others.
Qed.

End FocusFacts.

Lemma focus_class_follows_last_input_sample :
  "dark" ∈ Focus.run [Focus.KeyDown "Tab"; Focus.MouseDown; Focus.KeyDown "a"]
             ["dark"; "keyboard-navigation"].
Proof.
  apply (proj2 (focus_class_follows_last_input
                  [Focus.KeyDown "Tab"; Focus.MouseDown; Focus.KeyDown "a"]
                  ["dark"; "keyboard-navigation"]) "dark").
  - discriminate.
  - by apply (bool_decide_unpack _).
Defined.
